(** * Website-Text-Grabber: visible text extraction

    A shallow embedding of [app_streamlit_grab_text.py] and the properties
    of its extraction core: the visibility predicate, the sanitizer, the
    visible text collector, title derivation, whitespace normalisation and
    the combined text export.

    Python strings are sequences of Unicode code points; the document tree
    is the one BeautifulSoup builds (tags with an attribute dictionary and
    ordered contents, and string nodes of several classes). *)

From Stdlib Require Import NArith String Ascii List Lia Bool.
From stdpp Require Import base option list gmap.
Import ListNotations.

Local Open Scope N_scope.
Local Open Scope list_scope.

(** ** Python strings *)

Module PyStr.

(** A character is a Unicode code point, a [str] a sequence of them. *)
Abbreviation char := N (only parsing).
Abbreviation str := (list N) (only parsing).

(** String literals of the source, written in ASCII. *)
Definition U (lit : string) : str :=
  map N_of_ascii (list_ascii_of_string lit).

Definition NL : char := 10.
Definition TAB : char := 9.
Definition SPACE : char := 32.
Definition NBSP : char := 160.

(** [str.isspace] for one character, the set [str.strip()] removes:
    the code points of category Zs or of bidirectional class WS, B or S. *)
Definition isspace (c : char) : bool :=
  ((9 <=? c) && (c <=? 13)) || ((28 <=? c) && (c <=? 32))
  || (c =? 133) || (c =? 160) || (c =? 5760)
  || ((8192 <=? c) && (c <=? 8202))
  || (c =? 8232) || (c =? 8233) || (c =? 8239) || (c =? 8287)
  || (c =? 12288).

Fixpoint lstrip (s : str) : str :=
  match s with
  | [] => []
  | c :: s' => if isspace c then lstrip s' else s
  end.

Definition rstrip (s : str) : str := rev (lstrip (rev s)).

(** [s.strip()] *)
Definition strip (s : str) : str := rstrip (lstrip s).

(** [s.lower()], one code point at a time.  The case pairs of Basic
    Latin and of the Latin-1 Supplement are listed, and the two letterlike
    symbols that lower-case into them (U+212A, U+212B); the letters of
    other scripts are left as they are.  The program only ever compares a
    lower-cased value with the ASCII words [display:none],
    [visibility:hidden] and [true]: beyond the code points listed, the
    only one whose lower case has an ASCII letter is U+0130 (an [i]
    followed by a combining dot), and it takes part in an occurrence of
    these words neither lower-cased nor left alone. *)
Definition lower_char (c : char) : char :=
  if (65 <=? c) && (c <=? 90) then c + 32
  else if (192 <=? c) && (c <=? 222) && negb (c =? 215) then c + 32
  else if c =? 8490 then 107
  else if c =? 8491 then 229
  else c.

Definition lower (s : str) : str := map lower_char s.

(** [s.startswith(p)] *)
Fixpoint startswith (p s : str) : bool :=
  match p, s with
  | [], _ => true
  | _ :: _, [] => false
  | a :: p', b :: s' => (a =? b) && startswith p' s'
  end.

(** [p in s]: [p] occurs in [s] as a contiguous substring. *)
Fixpoint contains (p s : str) : bool :=
  startswith p s ||
  match s with
  | [] => false
  | _ :: s' => contains p s'
  end.

(** [s.replace(old, new)] for one-character [old] and [new]. *)
Definition replace (old new : char) (s : str) : str :=
  map (fun c => if c =? old then new else c) s.

(** [sep.join(parts)] *)
Fixpoint join (sep : str) (parts : list str) : str :=
  match parts with
  | [] => []
  | [p] => p
  | p :: rest => p ++ sep ++ join sep rest
  end.

(** The truth value of a string: non-empty. *)
Definition truthy (s : str) : bool :=
  match s with [] => false | _ :: _ => true end.

Definition str_eqb (a b : str) : bool := bool_decide (a = b).

(** [re.sub(r"[cls]{n,}", repl, s)]: scanning from the left, every
    maximal run of at least [n] characters of the class is replaced by
    [repl]; shorter runs and all other characters are copied ([n] is at
    least 1).  [run] is the run of class characters read so far and not
    yet written. *)
Definition flush (n : nat) (repl run : str) : str :=
  if (n <=? length run)%nat then repl else run.

Fixpoint re_sub_runs (cls : char -> bool) (n : nat) (repl run s : str) : str :=
  match s with
  | [] => flush n repl run
  | c :: s' =>
      if cls c then re_sub_runs cls n repl (run ++ [c]) s'
      else flush n repl run ++ c :: re_sub_runs cls n repl [] s'
  end.

Definition re_sub (cls : char -> bool) (n : nat) (repl s : str) : str :=
  re_sub_runs cls n repl [] s.

(** [str(i)] for a non-negative integer: its decimal digits. *)
Fixpoint digits (fuel : nat) (i : N) (acc : str) : str :=
  match fuel with
  | O => acc
  | S fuel' =>
      let acc' := (48 + i mod 10) :: acc in
      if i <? 10 then acc' else digits fuel' (i / 10) acc'
  end.

Definition str_of_int (i : N) : str := digits (S (N.to_nat (N.log2 i))) i [].

End PyStr.
Import PyStr.


(** ** The document tree of BeautifulSoup *)

Module Bs4.

(** The classes of string nodes: plain text ([NavigableString] itself) and
    its subclasses. *)
Inductive string_class :=
| NavigableString | Comment | CData | ProcessingInstruction | Declaration
| Doctype | Script | Stylesheet | TemplateString | RubyTextString
| RubyParenthesisString.

#[global] Instance string_class_eq_dec : EqDecision string_class.
Proof. solve_decision. Defined.

(** What a tag carries besides its contents: its name and [attrs], the
    dictionary of its attributes.  The attributes the program reads
    ([style], [aria-hidden], [hidden]) have string values. *)
Record element := Element { name : str; attrs : gmap (list N) (list N) }.

#[warnings="-register-all"]
Inductive node :=
| Tag (el : element) (contents : list node)
| Text (cls : string_class) (s : str).

(** The [BeautifulSoup] object is itself a tag, named [[document]] and
    without attributes, whose contents are the top-level nodes. *)
Definition document (contents : list node) : node :=
  Tag (Element (U "[document]") ∅) contents.

(** A node reached from the root, with [.parent]. *)
Record page_element := PageElement { parent : option element; self : node }.

(** [el.get(key)] and [el.has_attr(key)] *)
Definition get (el : element) (key : str) : option str := attrs el !! key.
Definition has_attr (el : element) (key : str) : bool :=
  bool_decide (is_Some (attrs el !! key)).

(** [.descendants]: every node below a tag, in document order (a node
    before its contents, contents from left to right). *)
Fixpoint subtree (p : element) (n : node) : list page_element :=
  PageElement (Some p) n ::
  match n with
  | Tag el cs => flat_map (subtree el) cs
  | Text _ _ => []
  end.

Definition descendants (n : node) : list page_element :=
  match n with
  | Tag el cs => flat_map (subtree el) cs
  | Text _ _ => []
  end.

(** [find_all] with a predicate on nodes, and [find], its first result. *)
Definition find_all (p : node -> bool) (soup : node) : list page_element :=
  filter (fun e => p (self e) = true) (descendants soup).

Definition find (p : node -> bool) (soup : node) : option node :=
  self <$> head (find_all p soup).

Definition is_tag_named (names : list str) (n : node) : bool :=
  match n with
  | Tag el _ => bool_decide (name el ∈ names)
  | Text _ _ => false
  end.

Definition is_string (n : node) : bool :=
  match n with Tag _ _ => false | Text _ _ => true end.

Definition is_instance (k : string_class) (n : node) : bool :=
  match n with
  | Tag _ _ => false
  | Text k' _ => bool_decide (k' = k)
  end.

(** [str(el)] for a string node. *)
Definition str_of (n : node) : str :=
  match n with Tag _ _ => [] | Text _ s => s end.

(** Calling [decompose()] (or, for a string, [extract()]) on every node of
    [find_all p]: each of them leaves the tree with all that is below it.
    Nodes below a removed one are in the result list too; removing them
    again changes nothing. *)
Fixpoint remove_all (p : node -> bool) (n : node) : node :=
  match n with
  | Tag el cs =>
      Tag el (omap (fun c => if p c then None else Some (remove_all p c)) cs)
  | Text _ _ => n
  end.

(** [tag.string]: the string of a tag whose only child is a string, or
    whose only child is a tag which has one. *)
Fixpoint tag_string (n : node) : option (string_class * str) :=
  match n with
  | Tag _ [child] =>
      match child with
      | Text k s => Some (k, s)
      | Tag _ _ => tag_string child
      end
  | _ => None
  end.

(** [tag.get_text(strip=True)] on a tag with the default string types
    (every tag but [script], [style], [template], [rt] and [rp]): the
    plain and CDATA strings below it, each stripped, the empty ones
    dropped, concatenated. *)
Definition interesting (k : string_class) : bool :=
  match k with NavigableString | CData => true | _ => false end.

Fixpoint all_strings_strip (els : list page_element) : list str :=
  match els with
  | [] => []
  | e :: rest =>
      match self e with
      | Text k s =>
          if interesting k then
            let s' := strip s in
            if (length s' =? 0)%nat then all_strings_strip rest
            else s' :: all_strings_strip rest
          else all_strings_strip rest
      | Tag _ _ => all_strings_strip rest
      end
  end.

Definition get_text_strip (n : node) : str :=
  concat (all_strings_strip (descendants n)).

End Bs4.
Import Bs4.

(** ** Exceptions *)

(** A Python computation returns a value or raises.  [AttributeError] is
    what reading an attribute of [None] raises, [ParserRejectedMarkup] what
    [BeautifulSoup] raises when [html.parser] gives up on the markup. *)
Inductive exn := AttributeError | ParserRejectedMarkup.

Inductive result (A : Type) :=
| Ok (a : A)
| Raise (e : exn).
Arguments Ok {A} a.
Arguments Raise {A} e.

#[global] Instance result_ret : MRet result := fun A a => Ok a.
#[global] Instance result_bind : MBind result := fun A B k m =>
  match m with
  | Ok a => k a
  | Raise e => Raise e
  end.

(** Reading an attribute or calling a method of a value that may be
    [None]: on [None] Python raises [AttributeError]. *)
Definition getattr {A B} (o : option A) (f : A -> B) : result B :=
  match o with
  | Some a => Ok (f a)
  | None => Raise AttributeError
  end.

(** ** Visible text extraction (the source) *)

(** [is_hidden(el)] *)
Definition is_hidden (el : element) : bool :=
  let style := lower (default [] (get el (U "style"))) in
  if contains (U "display:none") style || contains (U "visibility:hidden") style
  then true
  else
    let aria_hidden := lower (default [] (get el (U "aria-hidden"))) in
    if str_eqb aria_hidden (U "true") then true
    else if has_attr el (U "hidden") then true
    else false.

(** The first loop of [visible_text_nodes]: the unwanted tags are
    decomposed; the second: the comments are extracted. *)
Definition unwanted : list str :=
  [U "script"; U "style"; U "noscript"; U "template"].

Definition sanitize (soup : node) : node :=
  remove_all (is_instance Comment) (remove_all (is_tag_named unwanted) soup).

(** The third loop, over [soup.find_all(text=True)]. *)
Fixpoint visible_loop (els : list page_element) : list str :=
  match els with
  | [] => []
  | el :: rest =>
      if match parent el with Some p => is_hidden p | None => false end
      then visible_loop rest
      else
        let txt := str_of (self el) in
        if negb (truthy txt) || negb (truthy (strip txt))
        then visible_loop rest
        else txt :: visible_loop rest
  end.

(** [visible_text_nodes(soup)]: the strings it yields, in order. *)
Definition visible_text_nodes (soup : node) : list str :=
  visible_loop (find_all is_string (sanitize soup)).

(** Lines 63 to 66 of [extract_all_visible_text]: the collected parts are
    joined and the white space is normalised. *)
Definition is_hspace (c : char) : bool := (c =? SPACE) || (c =? TAB).
Definition is_newline (c : char) : bool := c =? NL.

Definition normalize (parts : list str) : str :=
  let full := join [NL] (map strip (filter (fun p => truthy (strip p) = true) parts)) in
  let full := replace NBSP SPACE full in
  let full := re_sub is_hspace 1 [SPACE] full in
  let full := strip (re_sub is_newline 3 [NL; NL] full) in
  full.

(** [soup.title] *)
Definition soup_title (soup : node) : option node :=
  find (is_tag_named [U "title"]) soup.

(** Lines 59 to 67 of [extract_all_visible_text], on the parsed tree.
    [soup.title] is looked up anew at each of its three occurrences. *)
Definition extract_soup (soup : node) : result (str * str) :=
  ttl ← (cond ← (if bool_decide (is_Some (soup_title soup))
                 then s ← getattr (soup_title soup) tag_string;
                      mret (match s with Some (_, s) => truthy s | None => false end)
                 else mret false);
         if (cond : bool) then getattr (soup_title soup) get_text_strip
         else mret []);
  let parts := visible_text_nodes soup in
  mret (ttl, normalize parts).

Section Parser.

(** The parser, [BeautifulSoup(html, "html.parser")], belongs to the
    library: it is a parameter here.  It builds a tree from the markup or
    raises (it raises [ParserRejectedMarkup] on markup [html.parser]
    cannot go through, such as [<![foo[bar]]>]). *)
Variable BeautifulSoup : str -> result node.

(** [extract_all_visible_text(html)]: an exception of the parser is not
    caught here. *)
Definition extract_all_visible_text (html : str) : result (str * str) :=
  soup ← BeautifulSoup html;
  extract_soup soup.

End Parser.

(** ** The combined text export (the source, lines 153 to 157) *)

Record Row := { url : str; title : str; text : str; notes : str }.

(** [a or b] on strings. *)
Definition str_or (a b : str) : str := if truthy a then a else b.

Definition header (idx : N) (r : Row) : str :=
  U "===== [" ++ str_of_int idx ++ U "] " ++ str_or (title r) (U "(no title)")
  ++ U " :: " ++ url r ++ U " =====" ++ [NL].

(** The loop over [enumerate(rows, start=idx)]. *)
Fixpoint combined_parts (idx : N) (rows : list Row) : list str :=
  match rows with
  | [] => []
  | r :: rest =>
      (header idx r ++ str_or (text r) [] ++ [NL; NL])
      :: combined_parts (idx + 1) rest
  end.

Definition combined_txt (rows : list Row) : str :=
  strip (concat (combined_parts 1 rows)).

(** ** File names (the source, lines 74 to 81) *)

(** [s.strip(chars)]: the characters of [chars] are removed at both ends. *)
Fixpoint lstrip_chars (chars s : str) : str :=
  match s with
  | [] => []
  | c :: s' => if bool_decide (c ∈ chars) then lstrip_chars chars s' else s
  end.

Definition strip_chars (chars s : str) : str :=
  rev (lstrip_chars chars (rev (lstrip_chars chars s))).

(** The class [[A-Za-z0-9]]. *)
Definition is_alnum (c : char) : bool :=
  ((65 <=? c) && (c <=? 90)) || ((97 <=? c) && (c <=? 122))
  || ((48 <=? c) && (c <=? 57)).

(** [f"{idx:02d}"]: the decimal digits, padded with zeros to two. *)
Definition format_02d (idx : N) : str :=
  let s := str_of_int idx in
  repeat 48 (2 - length s) ++ s.

(** The fields of [urlparse(url)] the program reads. *)
Record ParseResult := { netloc : str; path : str; query : str }.

Section Urlparse.

(** [urllib.parse.urlparse] belongs to the standard library: a parameter. *)
Variable urlparse : str -> ParseResult.

(** [safe_name(idx, url)] *)
Definition safe_name (idx : N) (url : str) : str :=
  let p := urlparse url in
  let host := replace 58 95 (str_or (netloc p) (U "site")) in
  let tail := replace 47 95 (str_or (strip_chars (U "/") (path p)) (U "index")) in
  let q := strip (query p) in
  let tail :=
    if truthy q
    then tail ++ U "_" ++
         strip_chars (U "_") (take 24 (re_sub (fun c => negb (is_alnum c)) 1 (U "_") q))
    else tail in
  format_02d idx ++ U "_" ++ host ++ U "_" ++ str_or tail (U "index") ++ U ".txt".

(** The loop that fills the ZIP archive (lines 141 to 143): the name and
    the content of each entry written, [idx] counting from its start. *)
Fixpoint zip_entries (idx : N) (rows : list Row) : list (str * str) :=
  match rows with
  | [] => []
  | r :: rest =>
      (safe_name idx (url r), str_or (text r) []) :: zip_entries (idx + 1) rest
  end.

End Urlparse.

(** ** The batch (the source, lines 106 to 124) *)

Definition MAX_LINKS : nat := 10.

(** [s.splitlines()]: the line boundaries are LF, VT, FF, CR, FS, GS, RS,
    NEL, LS and PS, and CR LF counts as one; the boundaries are not kept,
    and a boundary at the very end opens no further line.  [cur] is the
    line read so far. *)
Definition is_linebreak (c : char) : bool :=
  ((10 <=? c) && (c <=? 13)) || ((28 <=? c) && (c <=? 30))
  || (c =? 133) || (c =? 8232) || (c =? 8233).

Fixpoint splitlines_from (cur s : str) : list str :=
  match s with
  | [] => match cur with [] => [] | _ :: _ => [cur] end
  | c :: s' =>
      if is_linebreak c then
        cur :: match s' with
               | c' :: s'' =>
                   if (c =? 13) && (c' =? 10) then splitlines_from [] s''
                   else splitlines_from [] s'
               | [] => splitlines_from [] s'
               end
      else splitlines_from (cur ++ [c]) s'
  end.

Definition splitlines (s : str) : list str := splitlines_from [] s.

(** [list(dict.fromkeys(keys))]: the keys in the order of their first
    occurrence.  [seen] are the keys already in the dictionary. *)
Fixpoint fromkeys_from (seen keys : list str) : list str :=
  match keys with
  | [] => []
  | k :: rest =>
      if bool_decide (k ∈ seen) then fromkeys_from seen rest
      else k :: fromkeys_from (k :: seen) rest
  end.

Definition fromkeys (keys : list str) : list str := fromkeys_from [] keys.

(** Lines 107 and 108: the URLs taken from the text area. *)
Definition urls_of (urls_text : str) : list str :=
  let urls := map strip (filter (fun u => truthy (strip u) = true) (splitlines urls_text)) in
  take MAX_LINKS (fromkeys urls).

Section Batch.

(** [fetch_html] does the network request: a parameter, which returns the
    markup ([inr]) or raises an exception, of which [inl] gives the
    message.  [str_of_exn] is the message of an exception of the
    extraction, the parser's included: the [try] block holds both calls
    and its handler catches every [Exception]. *)
Variable fetch_html : str -> str + str.
Variable BeautifulSoup : str -> result node.
Variable str_of_exn : exn -> str.

(** The body of the loop over the URLs (lines 116 to 122): the row
    appended for one URL. *)
Definition grab (u : str) : Row :=
  match fetch_html u with
  | inl e => {| url := u; title := []; text := []; notes := U "Error: " ++ e |}
  | inr html =>
      match extract_all_visible_text BeautifulSoup html with
      | Ok (ttl, txt) => {| url := u; title := ttl; text := txt; notes := [] |}
      | Raise e =>
          {| url := u; title := []; text := []; notes := U "Error: " ++ str_of_exn e |}
      end
  end.

(** The rows after the loop. *)
Definition rows_of (urls : list str) : list Row := map grab urls.

End Batch.

(** * The vocabulary of the properties *)

(** [p] occurs in [s] up to the case of letters. *)
Definition occurs_ignoring_case (p s : str) : Prop :=
  exists pre mid post, s = pre ++ mid ++ post /\ lower mid = p.

(** No node below [n] satisfies [p]. *)
Definition clean (p : node -> bool) (n : node) : Prop :=
  Forall (fun e => p (self e) = false) (descendants n).

(** A predicate that looks at the node itself only (its name or its
    class) does not see what [remove_all] changes below it. *)
Definition shallow (p : node -> bool) : Prop :=
  forall q n, p (remove_all q n) = p n.

(** The trees [html.parser] builds from [<script>console.log('x')</script>Hello],
    [<style>.a{color:red}</style>World] and [<!-- secret -->Visible]. *)
Definition script_doc : node :=
  document [Tag (Element (U "script") ∅) [Text Script (U "console.log('x')")];
            Text NavigableString (U "Hello")].

Definition style_doc : node :=
  document [Tag (Element (U "style") ∅) [Text Stylesheet (U ".a{color:red}")];
            Text NavigableString (U "World")].

Definition comment_doc : node :=
  document [Text Comment (U " secret "); Text NavigableString (U "Visible")].

(** The strings left once every node that satisfies [p] is gone with
    all that is below it, each with its parent, in document order. *)
Fixpoint strings_outside (p : node -> bool) (par : element) (n : node) : list page_element :=
  match n with
  | Text _ _ => [PageElement (Some par) n]
  | Tag el cs => flat_map (fun c => if p c then [] else strings_outside p el c) cs
  end.

(** The strings of a document that are not comments and are not below (or
    in) a [script], [style], [noscript] or [template] tag. *)
Definition kept_strings (soup : node) : list page_element :=
  match soup with
  | Tag el cs =>
      flat_map (fun c => if is_tag_named unwanted c || is_instance Comment c
                         then [] else
                           strings_outside
                             (fun c => is_tag_named unwanted c || is_instance Comment c)
                             el c) cs
  | Text _ _ => []
  end.

(** Two trees of the same shape, with the same tag names and the same
    strings, whose tags have the same attributes wherever a string is
    directly among the contents; the attributes of all other tags are
    free. *)
#[warnings="-register-all"]
Inductive agree_on_text_parents : node -> node -> Prop :=
| agree_Text k s : agree_on_text_parents (Text k s) (Text k s)
| agree_Tag el el' cs cs' :
    name el = name el' ->
    (existsb is_string cs = true -> attrs el = attrs el') ->
    Forall2 agree_on_text_parents cs cs' ->
    agree_on_text_parents (Tag el cs) (Tag el' cs').

Definition respects_agree (p : node -> bool) : Prop :=
  forall n n', agree_on_text_parents n n' -> p n = p n'.

(** The strings the third loop yields from the nodes of one subtree. *)
Definition yielded (p : element) (n : node) : list str :=
  visible_loop (filter (fun e => is_string (self e) = true) (subtree p n)).

(** [<div style="visibility:hidden"><p>Deep</p></div>]: the hidden tag is
    two levels above the string, the direct parent is not hidden. *)
Definition hidden_div : element :=
  Element (U "div") {[ U "style" := U "visibility:hidden" ]}.
Definition plain_p : element := Element (U "p") ∅.
Definition nested_doc : node :=
  document [Tag hidden_div [Tag plain_p [Text NavigableString (U "Deep")]]].

(** The trees of [<title>  My Page  </title>], of [<p>Hi</p>] and of
    [<title>My <b>Page</b></title>]. *)
Definition titled_doc : node :=
  document [Tag (Element (U "title") ∅) [Text NavigableString (U "  My Page  ")]].

Definition untitled_doc : node :=
  document [Tag (Element (U "p") ∅) [Text NavigableString (U "Hi")]].

Definition mixed_title_doc : node :=
  document [Tag (Element (U "title") ∅)
              [Text NavigableString (U "My ");
               Tag (Element (U "b") ∅) [Text NavigableString (U "Page")]]].

(** The text content of a tag: its plain and CDATA strings, concatenated. *)
Definition is_text_content (n : node) : bool :=
  match n with
  | Text k _ => interesting k
  | Tag _ _ => false
  end.

Definition text_content (t : node) : str :=
  concat (map (fun e => str_of (self e))
            (filter (fun e => is_text_content (self e) = true) (descendants t))).

(** The title as the claim words it: the trimmed text content of the title
    tag when there is one with non-empty text content, else empty. *)
Definition title_as_claimed (soup : node) (ttl : str) : Prop :=
  match soup_title soup with
  | Some t => if truthy (text_content t) then ttl = strip (text_content t) else ttl = []
  | None => ttl = []
  end.

(** The tree of [<p>  Hi  </p>]. *)
Definition padded_doc : node :=
  document [Tag (Element (U "p") ∅) [Text NavigableString (U "  Hi  ")]].

(** The tree of [<title>A  B&nbsp;C</title>]. *)
Definition spaced_title_doc : node :=
  document [Tag (Element (U "title") ∅)
              [Text NavigableString (U "A  B" ++ [NBSP] ++ U "C")]].

(** What follows a run: the end of the string or a character outside the
    class. *)
Definition ends_run (cls : char -> bool) (s : str) : Prop :=
  match s with
  | [] => True
  | c :: _ => cls c = false
  end.

(** The header template [===== [index] title :: address =====]. *)
Definition header_line (idx : N) (ttl addr : str) : str :=
  U "===== [" ++ str_of_int idx ++ U "] " ++ ttl ++ U " :: " ++ addr ++ U " =====".


Definition titled_row : Row :=
  {| url := U "https://example.com"; title := U "Example Domain";
     text := U "Example Domain"; notes := [] |}.

Definition untitled_row : Row :=
  {| url := U "https://example.org/page"; title := []; text := U "Hi"; notes := [] |}.

(** The six steps as the specification words them, each defined on its
    own and without reference to the source's library calls. *)
Module NormalizerSpec.

Fixpoint trim_start (s : str) : str :=
  match s with
  | [] => []
  | c :: s' => if isspace c then trim_start s' else c :: s'
  end.

Fixpoint trim_end (s : str) : str :=
  match s with
  | [] => []
  | c :: s' =>
      match trim_end s' with
      | [] => if isspace c then [] else [c]
      | r => c :: r
      end
  end.

Definition trim (s : str) : str := trim_end (trim_start s).

(** 1. each fragment trimmed, the empty ones discarded *)
Definition survivors (fragments : list str) : list str :=
  filter (fun f => f <> []) (map trim fragments).

(** 2. joined with a single newline between neighbours *)
Definition join_lines (fragments : list str) : str :=
  tail (flat_map (fun f => NL :: f) fragments).

(** 3. non-breaking spaces become spaces *)
Definition nbsp_to_space (s : str) : str :=
  map (fun c => if c =? NBSP then SPACE else c) s.

(** 4. a run of spaces and tabs becomes one space: a space or tab followed
    by another is dropped, the last of a run is written as a space *)
Fixpoint squeeze_hspace (s : str) : str :=
  match s with
  | [] => []
  | c :: s' =>
      if is_hspace c then
        match s' with
        | c' :: _ =>
            if is_hspace c' then squeeze_hspace s' else SPACE :: squeeze_hspace s'
        | [] => [SPACE]
        end
      else c :: squeeze_hspace s'
  end.

(** 5. three or more newlines in a row become two: a newline followed by
    two more is dropped *)
Fixpoint limit_newlines (s : str) : str :=
  match s with
  | [] => []
  | c :: s' =>
      if is_newline c &&
         match s' with
         | c1 :: c2 :: _ => is_newline c1 && is_newline c2
         | _ => false
         end
      then limit_newlines s'
      else c :: limit_newlines s'
  end.

(** 1 to 6 in order *)
Definition normalize_spec (fragments : list str) : str :=
  trim (limit_newlines (squeeze_hspace (nbsp_to_space
    (join_lines (survivors fragments))))).

End NormalizerSpec.
Import NormalizerSpec.

(** No two neighbours in [s] are both of the class; no three in a row. *)
Fixpoint no_pair (cls : char -> bool) (s : str) : bool :=
  match s with
  | [] => true
  | a :: s' =>
      match s' with
      | b :: _ => negb (cls a && cls b)
      | [] => true
      end && no_pair cls s'
  end.

Fixpoint no_triple (cls : char -> bool) (s : str) : bool :=
  match s with
  | [] => true
  | a :: s' =>
      match s' with
      | b :: c :: _ => negb (cls a && cls b && cls c)
      | _ => true
      end && no_triple cls s'
  end.

(** A string the third loop of [visible_text_nodes] lets through: its
    parent is not hidden and it is not blank. *)
Definition shown (e : page_element) : bool :=
  negb (match parent e with Some p => is_hidden p | None => false end)
  && truthy (strip (str_of (self e))).

(** Reading a number back: the decimal digits at the start of a string,
    and their value. *)
Definition is_digit (c : char) : bool := (48 <=? c) && (c <=? 57).

Fixpoint leading_digits (s : str) : str :=
  match s with
  | [] => []
  | c :: s' => if is_digit c then c :: leading_digits s' else []
  end.

Definition int_of_digits (s : str) : N :=
  fold_left (fun v c => 10 * v + (c - 48)) s 0.

(** The part of a file name between the index and the query suffix: the
    host and the path, as [safe_name] writes them. *)
Definition name_stem (p : ParseResult) : str :=
  replace 58 95 (str_or (netloc p) (U "site")) ++ U "_" ++
  replace 47 95 (str_or (strip_chars (U "/") (path p)) (U "index")).

(** The stripped non-blank lines of the text area, before duplicates are
    dropped and the list is cut (line 107). *)
Definition url_lines (urls_text : str) : list str :=
  map strip (filter (fun u => truthy (strip u) = true) (splitlines urls_text)).

(** What [urlparse] finds in [https://example.com:8080/a/b/?x=1&y=2], and
    three lines of a text area. *)
Definition example_urlparse (_ : str) : ParseResult :=
  {| netloc := U "example.com:8080"; path := U "/a/b/"; query := U "x=1&y=2" |}.

Definition example_urls_text : str :=
  U " https://a.example " ++ [NL] ++ U "https://b.example" ++ [13; NL] ++ U "https://a.example".

(** A parser for the markup [<![foo[bar]]>]: [html.parser] stops at the
    unknown keyword of the marked section and [BeautifulSoup] raises
    [ParserRejectedMarkup].  Any other markup is taken here as one string
    of text, the way a parser that cannot make sense of its input would
    degrade; no other markup is parsed with it below. *)
Definition rejected_markup : str := U "<![foo[bar]]>".

Definition marked_section_parser (html : str) : result node :=
  if str_eqb html rejected_markup then Raise ParserRejectedMarkup
  else Ok (document [Text NavigableString html]).

(** The string [self e] is directly among the contents of a tag of the
    tree, and [parent e] is what that tag carries: [e] is a string of the
    tree with its immediate parent. *)
Inductive sits_in : node -> page_element -> Prop :=
| sits_here el cs n :
    In n cs -> is_string n = true ->
    sits_in (Tag el cs) (PageElement (Some el) n)
| sits_below el cs c e :
    In c cs -> sits_in c e -> sits_in (Tag el cs) e.

(** The tree of the markup below, with white space around the paragraph:
    [<div style="visibility:hidden">], newline, [<p>Deep</p>], newline,
    [</div>]. *)
Definition spaced_nested_doc : node :=
  document [Tag hidden_div [Text NavigableString [NL];
                            Tag plain_p [Text NavigableString (U "Deep")];
                            Text NavigableString [NL]]].

(** * Properties *)

(** ** Strings *)

Lemma startswith_spec (p s : str) :
  startswith p s = true <-> exists post, s = p ++ post.
Proof.
  revert s. induction p as [|a p IH]; intros s; simpl.
  - split; [eauto | trivial].
  - destruct s as [|b s].
    + split; [discriminate | intros [post H]; discriminate].
    + rewrite andb_true_iff, N.eqb_eq, IH. split.
      * intros [-> [post ->]]. eauto.
      * intros [post H]. injection H as -> ->. eauto.
Qed.

Lemma contains_spec (p s : str) :
  contains p s = true <-> exists pre post, s = pre ++ p ++ post.
Proof.
  induction s as [|c s IH]; simpl.
  - rewrite orb_false_r, startswith_spec. split.
    + intros [post H]. exists [], post. exact H.
    + intros [pre [post H]]. symmetry in H.
      apply app_eq_nil in H as [-> H]. eauto.
  - rewrite orb_true_iff, startswith_spec, IH. split.
    + intros [[post H] | [pre [post H]]].
      * exists [], post. exact H.
      * exists (c :: pre), post. simpl. congruence.
    + intros [[|c' pre] [post H]].
      * left. eauto.
      * right. injection H as _ H. eauto.
Qed.

Lemma str_eqb_eq (a b : str) : str_eqb a b = true <-> a = b.
Proof. unfold str_eqb. apply bool_decide_eq_true. Qed.

Lemma contains_lower (p s : str) :
  contains p (lower s) = true <-> occurs_ignoring_case p s.
Proof.
  rewrite contains_spec. unfold occurs_ignoring_case, lower. split.
  - intros [pre [post H]].
    apply map_eq_app in H as [a [r [-> [<- H]]]].
    apply map_eq_app in H as [b [c [-> [<- <-]]]].
    exists a, b, c. split; reflexivity.
  - intros [pre [mid [post [-> <-]]]].
    exists (map lower_char pre), (map lower_char post).
    rewrite !map_app. reflexivity.
Qed.

(** ** C1: the entry point returns *)

(** C1, as stated, fails: on the markup [<![foo[bar]]>] the parser raises
    and [extract_all_visible_text], which does not catch, raises with it. *)
Lemma extract_raises_on_rejected_markup :
  extract_all_visible_text marked_section_parser rejected_markup
    = Raise ParserRejectedMarkup
  /\ ~ (forall html : str, exists ttl full : str,
          extract_all_visible_text marked_section_parser html = Ok (ttl, full)).
Proof.
  split; [reflexivity|].
  intros H. destruct (H rejected_markup) as [ttl [full E]].
  vm_compute in E. discriminate E.
Qed.

(** C1, amended. For every parser and every markup string: when the parser
    builds a tree, [extract_all_visible_text] returns a pair of a title
    and a text, whatever the tree; when the parser raises, it raises the
    parser's exception.  It has no failure of its own. *)
Theorem extract_all_visible_text_returns (BeautifulSoup : str -> result node) (html : str) :
  match BeautifulSoup html with
  | Ok soup =>
      exists ttl full : str,
        extract_all_visible_text BeautifulSoup html = Ok (ttl, full)
  | Raise e => extract_all_visible_text BeautifulSoup html = Raise e
  end.
Proof.
  unfold extract_all_visible_text.
  destruct (BeautifulSoup html) as [soup|e]; [|reflexivity].
  cbn [mbind result_bind]. unfold extract_soup.
  destruct (soup_title soup) as [t|] eqn:Ht; simpl.
  - destruct (tag_string t) as [[k s]|]; simpl.
    + destruct (truthy s); simpl; eauto.
    + eauto.
  - eauto.
Qed.

(** ** C2: the visibility predicate *)

(** C2. [is_hidden] answers hidden exactly when the style value contains
    [display:none] or [visibility:hidden], or the [aria-hidden] value is
    [true], both up to the case of letters, or the [hidden] attribute is
    present with any value; an absent attribute counts as the empty
    string, and an element without the three attributes is visible. *)
Theorem is_hidden_rule (el : element) :
  let style := default [] (attrs el !! U "style") in
  let aria := default [] (attrs el !! U "aria-hidden") in
  (is_hidden el = true <->
     occurs_ignoring_case (U "display:none") style \/
     occurs_ignoring_case (U "visibility:hidden") style \/
     lower aria = U "true" \/
     (exists v, attrs el !! U "hidden" = Some v))
  /\ (attrs el !! U "style" = None ->
      attrs el !! U "aria-hidden" = None ->
      attrs el !! U "hidden" = None ->
      is_hidden el = false).
Proof.
  intros style aria.
  assert (Hiff : is_hidden el = true <->
     occurs_ignoring_case (U "display:none") style \/
     occurs_ignoring_case (U "visibility:hidden") style \/
     lower aria = U "true" \/
     (exists v, attrs el !! U "hidden" = Some v)).
  { unfold is_hidden, get, has_attr. fold style. fold aria.
    rewrite <- !contains_lower, <- str_eqb_eq.
    destruct (contains (U "display:none") (lower style)); simpl; [tauto|].
    destruct (contains (U "visibility:hidden") (lower style)); simpl; [tauto|].
    destruct (str_eqb (lower aria) (U "true")); simpl; [tauto|].
    case_bool_decide as Hh.
    - split; [|trivial]. intros _. right. right. right. exact Hh.
    - split; [discriminate|]. intros [H|[H|[H|H]]]; try discriminate.
      contradiction. }
  split; [exact Hiff|].
  intros Hs Ha Hh.
  apply not_true_is_false. intros E.
  apply Hiff in E. subst style aria. rewrite Hs, Ha, Hh in E. simpl in E.
  destruct E as [[pre [mid [post [H1 H2]]]]|[[pre [mid [post [H1 H2]]]]|[H|[v H]]]].
  - symmetry in H1. apply app_eq_nil in H1 as [_ H1].
    apply app_eq_nil in H1 as [-> _]. discriminate.
  - symmetry in H1. apply app_eq_nil in H1 as [_ H1].
    apply app_eq_nil in H1 as [-> _]. discriminate.
  - discriminate.
  - discriminate.
Qed.

(** A tag without attributes is visible. *)
Lemma is_hidden_rule_witness : is_hidden plain_p = false.
Proof. apply (proj2 (is_hidden_rule plain_p)); reflexivity. Defined.

(** ** The tree *)

(** Induction on a tree, with the hypothesis on all contents of a tag. *)
Lemma node_ind' (P : node -> Prop) :
  (forall el cs, Forall P cs -> P (Tag el cs)) ->
  (forall k s, P (Text k s)) ->
  forall n, P n.
Proof.
  intros HT HS. fix IH 1. intros [el cs | k s].
  - apply HT. induction cs as [|c cs IHcs]; constructor.
    + apply IH.
    + exact IHcs.
  - apply HS.
Qed.

Lemma subtree_unfold (el : element) (n : node) :
  subtree el n = PageElement (Some el) n :: descendants n.
Proof. destruct n; reflexivity. Qed.

Lemma clean_tag (p : node -> bool) (el : element) (cs : list node) :
  clean p (Tag el cs) <-> Forall (fun c => p c = false /\ clean p c) cs.
Proof.
  unfold clean at 1. simpl. rewrite Forall_flat_map.
  apply Forall_iff. intros c. rewrite subtree_unfold, Forall_cons. reflexivity.
Qed.

Lemma clean_text (p : node -> bool) k s : clean p (Text k s).
Proof. constructor. Qed.

Lemma is_tag_named_shallow names : shallow (is_tag_named names).
Proof. intros q [el cs|k s]; reflexivity. Qed.

Lemma is_instance_shallow k : shallow (is_instance k).
Proof. intros q [el cs|k' s]; reflexivity. Qed.

Lemma is_string_shallow : shallow is_string.
Proof. intros q [el cs|k' s]; reflexivity. Qed.

Lemma remove_all_clean (p : node -> bool) (n : node) :
  shallow p -> clean p (remove_all p n).
Proof.
  intros Hp. induction n as [el cs IH | k s] using node_ind'; simpl.
  - apply clean_tag. induction IH as [|c cs Hc _ IHcs]; simpl.
    + constructor.
    + destruct (p c) eqn:E; simpl; [exact IHcs|].
      constructor; [|exact IHcs]. split; [|exact Hc].
      rewrite Hp. exact E.
  - apply clean_text.
Qed.

Lemma remove_all_keeps_clean (p q : node -> bool) (n : node) :
  shallow p -> clean p n -> clean p (remove_all q n).
Proof.
  intros Hp. induction n as [el cs IH | k s] using node_ind'; simpl.
  - rewrite !clean_tag. intros Hcl.
    induction IH as [|c cs Hc _ IHcs]; simpl.
    + constructor.
    + apply Forall_cons in Hcl as [[Hpc Hcc] Hcl].
      destruct (q c); simpl; [exact (IHcs Hcl)|].
      constructor; [|exact (IHcs Hcl)].
      split; [rewrite Hp; exact Hpc | exact (Hc Hcc)].
  - intros _. apply clean_text.
Qed.

Lemma remove_all_noop (p : node -> bool) (n : node) :
  clean p n -> remove_all p n = n.
Proof.
  induction n as [el cs IH | k s] using node_ind'; simpl; [|reflexivity].
  rewrite clean_tag. intros Hcl. f_equal.
  induction IH as [|c cs Hc _ IHcs]; simpl; [reflexivity|].
  apply Forall_cons in Hcl as [[Hpc Hcc] Hcl].
  rewrite Hpc. simpl. f_equal; [exact (Hc Hcc) | exact (IHcs Hcl)].
Qed.

Lemma sanitize_clean (soup : node) :
  clean (is_tag_named unwanted) (sanitize soup) /\
  clean (is_instance Comment) (sanitize soup).
Proof.
  unfold sanitize. split.
  - apply remove_all_keeps_clean; [apply is_tag_named_shallow|].
    apply remove_all_clean, is_tag_named_shallow.
  - apply remove_all_clean, is_instance_shallow.
Qed.

(** ** C8: the sanitizer is idempotent *)

(** C8. Running the sanitizer on an already sanitized tree returns without
    error and leaves that tree as it is: the surviving nodes after two
    runs are those after one. *)
Theorem sanitize_idempotent (soup : node) :
  sanitize (sanitize soup) = sanitize soup.
Proof.
  destruct (sanitize_clean soup) as [Ht Hc].
  unfold sanitize at 1.
  rewrite (remove_all_noop _ _ Ht). apply remove_all_noop, Hc.
Qed.

(** ** C4: what the sanitizer removes *)

Lemma sanitized_strings (par : element) (n : node) :
  filter (fun e => is_string (self e) = true)
    (subtree par (remove_all (is_instance Comment)
                    (remove_all (is_tag_named unwanted) n)))
  = strings_outside (fun c => is_tag_named unwanted c || is_instance Comment c) par n.
Proof.
  revert par. induction n as [el cs IH | k s] using node_ind'; intros par.
  - cbn [remove_all]. rewrite subtree_unfold.
    rewrite filter_cons_False by (simpl; discriminate).
    cbn [descendants strings_outside].
    induction IH as [|c cs Hc _ IHcs]; [reflexivity|].
    cbn [omap list_omap flat_map].
    destruct (is_tag_named unwanted c) eqn:Et; cbn [orb]; [exact IHcs|].
    cbn [omap list_omap].
    rewrite is_instance_shallow.
    destruct (is_instance Comment c) eqn:Ec; [exact IHcs|].
    cbn [flat_map]. rewrite filter_app, Hc. f_equal. exact IHcs.
  - cbn [remove_all]. rewrite subtree_unfold.
    rewrite filter_cons_True by reflexivity. reflexivity.
Qed.

(** C4. After the sanitizer no node at any depth is a [script], [style],
    [noscript] or [template] tag, nor a comment; the strings left for the
    collector are, in order, those of the document that are not comments
    and not below such a tag; the three example documents extract to
    [Hello], [World] and [Visible]. *)
Theorem sanitize_removes_unwanted :
  (forall soup : node,
     Forall (fun e => is_tag_named unwanted (self e) = false /\
                      is_instance Comment (self e) = false)
            (descendants (sanitize soup)))
  /\ (forall soup : node, find_all is_string (sanitize soup) = kept_strings soup)
  /\ extract_soup script_doc = Ok ([], U "Hello")
  /\ extract_soup style_doc = Ok ([], U "World")
  /\ extract_soup comment_doc = Ok ([], U "Visible").
Proof.
  split.
  - intros soup. destruct (sanitize_clean soup) as [Ht Hc].
    unfold clean in Ht, Hc. rewrite Forall_forall in *.
    intros e He. split; [apply Ht | apply Hc]; exact He.
  - split; [|repeat split; vm_compute; reflexivity].
    intros [el cs|k s]; [|reflexivity].
    unfold find_all, sanitize, kept_strings. cbn [remove_all descendants].
    induction cs as [|c cs IH]; [reflexivity|].
    cbn [omap list_omap flat_map].
    destruct (is_tag_named unwanted c) eqn:Et; cbn [orb]; [exact IH|].
    cbn [omap list_omap].
    rewrite is_instance_shallow.
    destruct (is_instance Comment c) eqn:Ec; [exact IH|].
    cbn [flat_map]. rewrite filter_app, sanitized_strings. f_equal. exact IH.
Qed.

(** ** C3: only the direct parent is examined *)

Lemma is_hidden_attrs (el el' : element) :
  attrs el = attrs el' -> is_hidden el = is_hidden el'.
Proof. intros H. unfold is_hidden, get, has_attr. rewrite H. reflexivity. Qed.

Lemma is_tag_named_agree names : respects_agree (is_tag_named names).
Proof. intros n n' H. destruct H as [|el el' cs cs' Hn _ _]; simpl; [|rewrite Hn]; reflexivity. Qed.

Lemma is_instance_agree k : respects_agree (is_instance k).
Proof. intros n n' H. destruct H; reflexivity. Qed.

Lemma existsb_is_string_omap (p : node -> bool) (cs : list node) :
  existsb is_string (omap (fun c => if p c then None else Some (remove_all p c)) cs) = true ->
  existsb is_string cs = true.
Proof.
  induction cs as [|c cs IH]; simpl; [trivial|].
  destruct (p c); simpl.
  - intros H. rewrite (IH H). apply orb_true_r.
  - rewrite is_string_shallow. intros H.
    apply orb_true_iff in H as [H|H]; [rewrite H; reflexivity|].
    rewrite (IH H). apply orb_true_r.
Qed.

Lemma agree_omap (p : node -> bool) (cs cs' : list node) :
  respects_agree p ->
  Forall2 agree_on_text_parents cs cs' ->
  Forall (fun n => forall n', agree_on_text_parents n n' ->
            agree_on_text_parents (remove_all p n) (remove_all p n')) cs ->
  Forall2 agree_on_text_parents
    (omap (fun c => if p c then None else Some (remove_all p c)) cs)
    (omap (fun c => if p c then None else Some (remove_all p c)) cs').
Proof.
  intros Hp HF. induction HF as [|c c' cs cs' Hc HF IHF]; intros IH; simpl.
  - constructor.
  - apply Forall_cons in IH as [IHc IHcs].
    rewrite <- (Hp _ _ Hc). destruct (p c); simpl.
    + apply IHF, IHcs.
    + constructor; [apply IHc, Hc | apply IHF, IHcs].
Qed.

Lemma agree_remove_all (p : node -> bool) (n n' : node) :
  respects_agree p ->
  agree_on_text_parents n n' ->
  agree_on_text_parents (remove_all p n) (remove_all p n').
Proof.
  intros Hp. revert n'.
  induction n as [el cs IH | k s] using node_ind'; intros n' H;
    inversion H as [|? el' ? cs' Hn Ha HF]; subst; simpl.
  - constructor.
    + exact Hn.
    + intros Hex. apply existsb_is_string_omap in Hex. auto.
    + apply agree_omap; assumption.
  - constructor.
Qed.

Lemma agree_sanitize (n n' : node) :
  agree_on_text_parents n n' ->
  agree_on_text_parents (sanitize n) (sanitize n').
Proof.
  intros H. unfold sanitize.
  apply agree_remove_all; [apply is_instance_agree|].
  apply agree_remove_all; [apply is_tag_named_agree | exact H].
Qed.

Lemma visible_loop_app (a b : list page_element) :
  visible_loop (a ++ b) = visible_loop a ++ visible_loop b.
Proof.
  induction a as [|e a IH]; simpl; [reflexivity|].
  destruct (match parent e with Some p => is_hidden p | None => false end); [exact IH|].
  destruct (negb (truthy (str_of (self e))) || negb (truthy (strip (str_of (self e)))));
    [exact IH|].
  simpl. rewrite IH. reflexivity.
Qed.

Lemma yielded_flat_map (el : element) (cs : list node) :
  visible_loop (filter (fun e => is_string (self e) = true) (flat_map (subtree el) cs))
  = flat_map (yielded el) cs.
Proof.
  induction cs as [|c cs IH]; simpl; [reflexivity|].
  rewrite filter_app, visible_loop_app, IH. reflexivity.
Qed.

Lemma yielded_tag (p el : element) (cs : list node) :
  yielded p (Tag el cs) = flat_map (yielded el) cs.
Proof.
  unfold yielded at 1.
  rewrite subtree_unfold, filter_cons_False by (simpl; discriminate).
  apply yielded_flat_map.
Qed.

Lemma yielded_agree (n n' : node) :
  agree_on_text_parents n n' ->
  forall p p', (is_string n = true -> attrs p = attrs p') ->
  yielded p n = yielded p' n'.
Proof.
  revert n'.
  induction n as [el cs IH | k s] using node_ind'; intros n' H p p' Hp;
    inversion H as [|? el' ? cs' Hn Ha HF]; subst.
  - rewrite !yielded_tag. clear H Hp.
    induction HF as [|c c' cs cs' Hc HF IHF]; simpl; [reflexivity|].
    apply Forall_cons in IH as [IHc IHcs]. f_equal.
    + apply IHc; [exact Hc|]. intros Hs. apply Ha. simpl. rewrite Hs. reflexivity.
    + apply IHF; [exact IHcs|]. intros Hex. apply Ha. simpl. rewrite Hex. apply orb_true_r.
  - unfold yielded. rewrite !subtree_unfold.
    rewrite !filter_cons_True by reflexivity. simpl.
    rewrite (is_hidden_attrs p p') by (apply Hp; reflexivity). reflexivity.
Qed.

Lemma yielded_contents_agree (el el' : element) (cs cs' : list node) :
  Forall2 agree_on_text_parents cs cs' ->
  (existsb is_string cs = true -> attrs el = attrs el') ->
  flat_map (yielded el) cs = flat_map (yielded el') cs'.
Proof.
  intros HF. induction HF as [|c c' cs cs' Hc HF IHF]; intros Ha; simpl; [reflexivity|].
  f_equal.
  - apply yielded_agree; [exact Hc|]. intros Hs. apply Ha. simpl. rewrite Hs. reflexivity.
  - apply IHF. intros Hex. apply Ha. simpl. rewrite Hex. apply orb_true_r.
Qed.

Lemma visible_text_nodes_tag (soup : node) :
  visible_text_nodes soup =
  match sanitize soup with
  | Tag el cs => flat_map (yielded el) cs
  | Text _ _ => []
  end.
Proof.
  unfold visible_text_nodes, find_all, descendants.
  destruct (sanitize soup) as [el cs|k s]; [apply yielded_flat_map | reflexivity].
Qed.

Lemma truthy_strip (t : str) : truthy (strip t) = true -> truthy t = true.
Proof. destruct t; [discriminate | reflexivity]. Qed.

Lemma visible_loop_shown (els : list page_element) :
  visible_loop els =
  map (fun e => str_of (self e)) (filter (fun e => shown e = true) els).
Proof.
  induction els as [|e els IH]; [reflexivity|].
  cbn [visible_loop]. unfold shown at 1.
  destruct (match parent e with Some p => is_hidden p | None => false end) eqn:Eh.
  - rewrite filter_cons_False; [exact IH|].
    unfold shown. rewrite Eh. discriminate.
  - destruct (truthy (strip (str_of (self e)))) eqn:Es.
    + rewrite (truthy_strip _ Es). cbn [negb orb].
      rewrite filter_cons_True by (unfold shown; rewrite Eh, Es; reflexivity).
      cbn [map]. rewrite IH. reflexivity.
    + rewrite orb_true_r.
      rewrite filter_cons_False; [exact IH|].
      unfold shown. rewrite Eh, Es. discriminate.
Qed.

Lemma sanitized_kept (soup : node) :
  find_all is_string (sanitize soup) = kept_strings soup.
Proof.
  destruct soup as [el cs|k s]; [|reflexivity].
  unfold find_all, sanitize, kept_strings. cbn [remove_all descendants].
  induction cs as [|c cs IH]; [reflexivity|].
  cbn [omap list_omap flat_map].
  destruct (is_tag_named unwanted c) eqn:Et; cbn [orb]; [exact IH|].
  cbn [omap list_omap].
  rewrite is_instance_shallow.
  destruct (is_instance Comment c) eqn:Ec; [exact IH|].
  cbn [flat_map]. rewrite filter_app, sanitized_strings. f_equal. exact IH.
Qed.

Lemma strings_outside_sit (p : node -> bool) (par : element) (n : node)
    (e : page_element) :
  In e (strings_outside p par n) ->
  (e = PageElement (Some par) n /\ is_string n = true) \/ sits_in n e.
Proof.
  revert par. induction n as [el cs IH | k s] using node_ind'; intros par.
  - cbn [strings_outside]. rewrite in_flat_map. intros [c [Hc He]].
    right. rewrite Forall_forall in IH.
    destruct (p c); [destruct He|].
    destruct (IH c (proj2 (list_elem_of_In _ _) Hc) el He) as [[-> Hs]|Hs].
    + apply sits_here; assumption.
    + eapply sits_below; eassumption.
  - intros [<-|[]]. left. split; reflexivity.
Qed.

Lemma kept_strings_sit (soup : node) (e : page_element) :
  In e (kept_strings soup) -> sits_in soup e.
Proof.
  destruct soup as [el cs|k s]; [|intros []].
  unfold kept_strings. rewrite in_flat_map. intros [c [Hc He]].
  destruct (is_tag_named unwanted c || is_instance Comment c); [destruct He|].
  destruct (strings_outside_sit _ _ _ _ He) as [[-> Hs]|Hs].
  - apply sits_here; assumption.
  - eapply sits_below; eassumption.
Qed.

(** C3. The collector looks at the direct parent of a string only.  For
    every document it yields the strings left by the sanitizer for which
    [shown] holds, in order; each of these strings comes with the tag
    that directly contains it, and [shown] reads nothing but the
    attributes of that tag and the string itself: no tag further up is
    consulted.  So two documents that differ in nothing but the
    attributes of tags that have no string directly among their contents
    yield the same strings; and a string whose grandparent carries
    [visibility:hidden] while its parent is not hidden is yielded and
    appears in the extracted text, with or without white space around
    its parent. *)
Theorem visibility_is_parent_only :
  (forall soup : node,
     visible_text_nodes soup =
     map (fun e => str_of (self e))
         (filter (fun e => shown e = true) (kept_strings soup)))
  /\ (forall (soup : node) (e : page_element),
        In e (kept_strings soup) -> sits_in soup e)
  /\ (forall e e' : page_element,
        str_of (self e) = str_of (self e') ->
        option_map attrs (parent e) = option_map attrs (parent e') ->
        shown e = shown e')
  /\ (forall soup soup' : node,
        agree_on_text_parents soup soup' ->
        visible_text_nodes soup = visible_text_nodes soup')
  /\ (is_hidden hidden_div = true /\ is_hidden plain_p = false /\
      visible_text_nodes nested_doc = [U "Deep"] /\
      extract_soup nested_doc = Ok ([], U "Deep") /\
      visible_text_nodes spaced_nested_doc = [U "Deep"] /\
      extract_soup spaced_nested_doc = Ok ([], U "Deep")).
Proof.
  split; [|split; [|split; [|split]]].
  - intros soup. unfold visible_text_nodes.
    rewrite sanitized_kept. apply visible_loop_shown.
  - exact kept_strings_sit.
  - intros e e' Hs Hp. unfold shown. rewrite Hs. f_equal. f_equal.
    destruct (parent e) as [p|], (parent e') as [p'|]; try discriminate Hp;
      [|reflexivity].
    apply is_hidden_attrs. simpl in Hp. congruence.
  - intros soup soup' H. rewrite !visible_text_nodes_tag.
    apply agree_sanitize in H.
    inversion H as [|el el' cs cs' Hn Ha HF]; subst; [reflexivity|].
    apply yielded_contents_agree; assumption.
  - repeat split; vm_compute; reflexivity.
Qed.

(** The attributes of the [div] play no part: without its style the
    document yields the same. *)
Lemma visibility_is_parent_only_witness :
  visible_text_nodes nested_doc =
  visible_text_nodes
    (document [Tag (Element (U "div") ∅) [Tag plain_p [Text NavigableString (U "Deep")]]]).
Proof.
  apply (proj1 (proj2 (proj2 (proj2 visibility_is_parent_only)))).
  constructor; [reflexivity | reflexivity |].
  constructor; [|constructor].
  constructor; [reflexivity | discriminate |].
  constructor; [|constructor].
  constructor; [reflexivity | reflexivity |].
  constructor; [|constructor].
  constructor.
Defined.

(** ** C6: the title *)

Lemma tag_string_get_text (t : node) (k : string_class) (s : str) :
  tag_string t = Some (k, s) ->
  get_text_strip t = if interesting k then strip s else [].
Proof.
  induction t as [el cs IH | k' s'] using node_ind'; [|discriminate].
  destruct cs as [|child [|c2 cs]]; try discriminate.
  apply Forall_cons in IH as [IH _].
  destruct child as [e cs'|k' s']; simpl.
  - intros H. rewrite <- (IH H). unfold get_text_strip. simpl.
    rewrite app_nil_r. reflexivity.
  - intros H. injection H as -> ->. unfold get_text_strip. simpl.
    destruct (interesting k); [|reflexivity].
    destruct (strip s) as [|c r]; simpl; [reflexivity|].
    rewrite app_nil_r. reflexivity.
Qed.

(** C6, as stated, fails on a title with more than one child: its text
    content is [My Page], the title returned is empty. *)
Lemma title_as_claimed_fails :
  ~ (forall ttl full : str,
       extract_soup mixed_title_doc = Ok (ttl, full) ->
       title_as_claimed mixed_title_doc ttl).
Proof.
  intros H. specialize (H [] (U "My" ++ [NL] ++ U "Page") eq_refl).
  vm_compute in H. discriminate H.
Qed.

(** C6, amended. The extraction returns, and its title is: empty when
    there is no [title] tag; the trimmed string when the [title] tag holds
    a single string (directly or through a chain of only children) that is
    plain text or CDATA; empty when that single string is of another class
    or when the tag has no or several children.  [<title>  My Page  </title>]
    gives [My Page], a document without title gives the empty title. *)
Theorem title_derivation (soup : node) :
  (exists ttl full : str,
     extract_soup soup = Ok (ttl, full) /\
     ttl = match soup_title soup with
           | None => []
           | Some t =>
               match tag_string t with
               | Some (k, s) => if interesting k then strip s else []
               | None => []
               end
           end)
  /\ (exists full, extract_soup titled_doc = Ok (U "My Page", full))
  /\ (exists full, extract_soup untitled_doc = Ok ([], full)).
Proof.
  split; [|split; eexists; vm_compute; reflexivity].
  unfold extract_soup.
  destruct (soup_title soup) as [t|]; simpl; [|eauto].
  destruct (tag_string t) as [[k s]|] eqn:Hs; simpl; [|eauto].
  destruct (truthy s) eqn:Ht; simpl.
  - rewrite (tag_string_get_text _ _ _ Hs). eauto.
  - destruct s; [|discriminate]. do 2 eexists. split; [reflexivity|].
    destruct (interesting k); reflexivity.
Qed.

(** ** C7: what the collector yields *)

Lemma visible_loop_nonblank (els : list page_element) (t : str) :
  In t (visible_loop els) -> t <> [] /\ strip t <> [].
Proof.
  induction els as [|e els IH]; simpl; [contradiction|].
  destruct (match parent e with Some p => is_hidden p | None => false end); [exact IH|].
  destruct (truthy (str_of (self e))) eqn:H1; simpl; [|exact IH].
  destruct (truthy (strip (str_of (self e)))) eqn:H2; simpl; [|exact IH].
  intros [<-|H]; [|exact (IH H)].
  split; intros E; rewrite E in *; discriminate.
Qed.

(** C7, as stated, fails: the string of [padded_doc] is yielded with its
    white space, it is not equal to its own trim. *)
Lemma yielded_trimmed_fails :
  ~ (forall t : str, In t (visible_text_nodes padded_doc) -> t <> [] /\ strip t = t).
Proof.
  intros H. destruct (H (U "  Hi  ")) as [_ E].
  - vm_compute. left. reflexivity.
  - vm_compute in E. discriminate E.
Qed.

(** C7, amended. Every string the collector yields is non-empty and not
    all white space (its trim is non-empty); it is yielded as it stands in
    the document, not trimmed. *)
Theorem yielded_nonblank (soup : node) (t : str) :
  In t (visible_text_nodes soup) -> t <> [] /\ strip t <> [].
Proof. apply visible_loop_nonblank. Qed.

Lemma yielded_nonblank_witness :
  U "  Hi  " <> [] /\ strip (U "  Hi  ") <> [].
Proof.
  apply (yielded_nonblank padded_doc (U "  Hi  ")).
  vm_compute. left. reflexivity.
Defined.

(** ** C5: the normalizer *)

Lemma lstrip_trim_start (s : str) : lstrip s = trim_start s.
Proof. induction s as [|c s IH]; simpl; [|rewrite IH]; reflexivity. Qed.

Lemma lstrip_app (a b : str) :
  lstrip (a ++ b) = match lstrip a with [] => lstrip b | r => r ++ b end.
Proof.
  induction a as [|c a IH]; simpl; [destruct (lstrip b); reflexivity|].
  destruct (isspace c); [exact IH | reflexivity].
Qed.

Lemma rstrip_trim_end (s : str) : rstrip s = trim_end s.
Proof.
  unfold rstrip. induction s as [|c s IH]; simpl; [reflexivity|].
  rewrite lstrip_app, <- IH.
  destruct (lstrip (rev s)) as [|x r] eqn:E; simpl.
  - destruct (isspace c); reflexivity.
  - rewrite rev_app_distr. simpl.
    destruct (rev r ++ [x]) eqn:E2; [|reflexivity].
    destruct (rev r); discriminate.
Qed.

Lemma strip_trim (s : str) : strip s = trim s.
Proof. unfold strip, trim. rewrite rstrip_trim_end, lstrip_trim_start. reflexivity. Qed.

Lemma truthy_nonempty (s : str) : truthy s = true <-> s <> [].
Proof. destruct s; simpl; split; congruence. Qed.

Lemma stripped_parts_survivors (parts : list str) :
  map strip (filter (fun p => truthy (strip p) = true) parts) = survivors parts.
Proof.
  unfold survivors. induction parts as [|p parts IH]; [reflexivity|].
  cbn [map]. rewrite <- strip_trim.
  destruct (truthy (strip p)) eqn:E.
  - rewrite filter_cons_True by exact E.
    rewrite filter_cons_True by (apply truthy_nonempty; exact E).
    cbn [map]. rewrite IH. reflexivity.
  - rewrite filter_cons_False by (rewrite E; discriminate).
    rewrite filter_cons_False; [exact IH|].
    rewrite <- truthy_nonempty, E. discriminate.
Qed.

Lemma join_join_lines (parts : list str) : join [NL] parts = join_lines parts.
Proof.
  unfold join_lines. induction parts as [|p [|q parts] IH]; simpl.
  - reflexivity.
  - rewrite app_nil_r. reflexivity.
  - simpl in IH. rewrite IH. reflexivity.
Qed.

Lemma squeeze_run (run tl : str) :
  Forall (fun c => is_hspace c = true) run ->
  ends_run is_hspace tl ->
  squeeze_hspace (run ++ tl) = flush 1 [SPACE] run ++ squeeze_hspace tl.
Proof.
  intros Hrun Htl. induction Hrun as [|a r Ha Hr IH]; [reflexivity|].
  change (flush 1 [SPACE] (a :: r)) with [SPACE].
  cbn [app squeeze_hspace]. rewrite Ha.
  destruct r as [|b r'].
  - destruct tl as [|c tl']; [reflexivity|].
    cbn [app]. simpl in Htl. rewrite Htl. reflexivity.
  - cbn [app]. apply Forall_cons in Hr as [Hb _]. rewrite Hb.
    exact IH.
Qed.

Lemma re_sub_squeeze (run s : str) :
  Forall (fun c => is_hspace c = true) run ->
  re_sub_runs is_hspace 1 [SPACE] run s = squeeze_hspace (run ++ s).
Proof.
  revert run. induction s as [|c s IH]; intros run Hrun.
  - cbn [re_sub_runs]. rewrite (squeeze_run run []); [|exact Hrun|exact I].
    rewrite app_nil_r. reflexivity.
  - cbn [re_sub_runs]. destruct (is_hspace c) eqn:Hc.
    + rewrite IH by (apply Forall_app; split; [exact Hrun | repeat constructor; exact Hc]).
      rewrite <- app_assoc. reflexivity.
    + rewrite (squeeze_run run (c :: s)); [|exact Hrun|exact Hc].
      rewrite (IH []) by constructor.
      cbn [app squeeze_hspace]. rewrite Hc. reflexivity.
Qed.

Lemma flush_newlines_short (run : str) :
  (length run < 3)%nat -> flush 3 [NL; NL] run = run.
Proof.
  intros H. unfold flush.
  destruct (3 <=? length run)%nat eqn:E; [|reflexivity].
  apply Nat.leb_le in E. lia.
Qed.

Lemma flush_newlines_long (run : str) :
  Forall (fun c => is_newline c = true) run ->
  (2 <= length run)%nat -> flush 3 [NL; NL] run = [NL; NL].
Proof.
  intros Hrun H. unfold flush.
  destruct (3 <=? length run)%nat eqn:E; [reflexivity|].
  apply Nat.leb_gt in E.
  destruct run as [|a [|b [|c r]]]; simpl in *; try lia.
  apply Forall_cons in Hrun as [Ha Hrun]. apply Forall_cons in Hrun as [Hb _].
  apply N.eqb_eq in Ha, Hb. subst. reflexivity.
Qed.

Lemma limit_run (run tl : str) :
  Forall (fun c => is_newline c = true) run ->
  ends_run is_newline tl ->
  limit_newlines (run ++ tl) = flush 3 [NL; NL] run ++ limit_newlines tl.
Proof.
  intros Hrun Htl. induction Hrun as [|a r Ha Hr IH]; [reflexivity|].
  cbn [app limit_newlines]. rewrite Ha. cbn [andb].
  destruct r as [|b [|b2 r']].
  - rewrite flush_newlines_short by (simpl; lia).
    destruct tl as [|c [|c2 tl']]; cbn [app]; try reflexivity.
    simpl in Htl. rewrite Htl. reflexivity.
  - rewrite flush_newlines_short by (simpl; lia).
    rewrite flush_newlines_short in IH by (simpl; lia).
    destruct tl as [|c tl']; cbn [app] in *.
    + rewrite IH. reflexivity.
    + simpl in Htl. rewrite Htl, andb_false_r, IH. reflexivity.
  - pose proof Hr as Hr'.
    apply Forall_cons in Hr as [Hb Hr]. apply Forall_cons in Hr as [Hb2 _].
    cbn [app] in *. rewrite Hb, Hb2. cbn [andb]. rewrite IH.
    rewrite (flush_newlines_long (a :: b :: b2 :: r')).
    + rewrite (flush_newlines_long (b :: b2 :: r')); [reflexivity|exact Hr'|simpl; lia].
    + constructor; assumption.
    + simpl; lia.
Qed.

Lemma re_sub_limit (run s : str) :
  Forall (fun c => is_newline c = true) run ->
  re_sub_runs is_newline 3 [NL; NL] run s = limit_newlines (run ++ s).
Proof.
  revert run. induction s as [|c s IH]; intros run Hrun.
  - cbn [re_sub_runs]. rewrite (limit_run run []); [|exact Hrun|exact I].
    rewrite app_nil_r. reflexivity.
  - cbn [re_sub_runs]. destruct (is_newline c) eqn:Hc.
    + rewrite IH by (apply Forall_app; split; [exact Hrun | repeat constructor; exact Hc]).
      rewrite <- app_assoc. reflexivity.
    + rewrite (limit_run run (c :: s)); [|exact Hrun|exact Hc].
      rewrite (IH []) by constructor.
      cbn [app limit_newlines]. rewrite Hc. reflexivity.
Qed.

(** C5. The normalizer of the source computes what the six steps of the
    specification describe, for every sequence of fragments; the result is
    a string, a function of the sequence. *)
Theorem normalize_refines_spec (parts : list str) :
  normalize parts = normalize_spec parts.
Proof.
  unfold normalize, normalize_spec, re_sub.
  rewrite stripped_parts_survivors, join_join_lines.
  rewrite re_sub_squeeze by constructor.
  rewrite re_sub_limit by constructor.
  rewrite strip_trim. reflexivity.
Qed.

(** ** C10: the title is not normalised *)

Lemma In_trim_start (x : char) (s : str) : In x (trim_start s) -> In x s.
Proof.
  induction s as [|c s IH]; simpl; [trivial|].
  destruct (isspace c); [right; auto | trivial].
Qed.

Lemma In_trim_end (x : char) (s : str) : In x (trim_end s) -> In x s.
Proof.
  induction s as [|c s IH]; simpl; [trivial|].
  destruct (trim_end s) as [|y r].
  - destruct (isspace c); simpl; tauto.
  - intros [H|H]; [left; exact H | right; apply IH; exact H].
Qed.

Lemma In_limit_newlines (x : char) (s : str) : In x (limit_newlines s) -> In x s.
Proof.
  induction s as [|c s IH]; cbn [limit_newlines]; [trivial|].
  destruct (is_newline c && _).
  - intros H. right. apply IH, H.
  - intros [H|H]; [left; exact H | right; apply IH; exact H].
Qed.

Lemma In_squeeze_hspace (x : char) (s : str) :
  In x (squeeze_hspace s) -> x = SPACE \/ In x s.
Proof.
  induction s as [|c s IH]; cbn [squeeze_hspace]; [tauto|].
  destruct (is_hspace c).
  - destruct s as [|c' s'].
    + intros [H|[]]. left. symmetry. exact H.
    + destruct (is_hspace c').
      * intros H. destruct (IH H) as [E|E]; [left; exact E | right; right; exact E].
      * intros [H|H]; [left; symmetry; exact H|].
        destruct (IH H) as [E|E]; [left; exact E | right; right; exact E].
  - intros [H|H]; [right; left; exact H|].
    destruct (IH H) as [E|E]; [left; exact E | right; right; exact E].
Qed.

Lemma replace_nbsp_free (s : str) : ~ In NBSP (replace NBSP SPACE s).
Proof.
  unfold replace. rewrite in_map_iff. intros [c [H _]].
  destruct (c =? NBSP) eqn:E; [discriminate H|].
  apply N.eqb_neq in E. congruence.
Qed.

Lemma normalize_nbsp_free (parts : list str) : ~ In NBSP (normalize parts).
Proof.
  unfold normalize, re_sub. intros H.
  rewrite strip_trim, re_sub_limit, re_sub_squeeze in H by constructor.
  apply In_trim_end, In_trim_start, In_limit_newlines, In_squeeze_hspace in H.
  destruct H as [H|H]; [discriminate H|].
  exact (replace_nbsp_free _ H).
Qed.

(** C10. The title is trimmed and nothing else, while the text is
    normalised: when the title tag holds one plain string, the title
    returned is that string trimmed, and the text returned has no
    non-breaking space; for [spaced_title_doc] the title returned contains
    a non-breaking space and two consecutive spaces, the text returned for
    the same document contains neither. *)
Theorem title_keeps_inner_whitespace :
  (forall (soup t : node) (s : str),
     soup_title soup = Some t ->
     tag_string t = Some (NavigableString, s) ->
     exists full, extract_soup soup = Ok (strip s, full) /\ ~ In NBSP full)
  /\ (exists ttl full : str,
        extract_soup spaced_title_doc = Ok (ttl, full) /\
        ttl = U "A  B" ++ [NBSP] ++ U "C" /\
        full = U "A B C" /\
        In NBSP ttl /\ contains [SPACE; SPACE] ttl = true /\
        ~ In NBSP full /\ contains [SPACE; SPACE] full = false).
Proof.
  split.
  - intros soup t s Ht Hs. unfold extract_soup. rewrite Ht. simpl. rewrite Hs. simpl.
    exists (normalize (visible_text_nodes soup)).
    split; [|apply normalize_nbsp_free].
    destruct s as [|c s']; simpl; [reflexivity|].
    rewrite (tag_string_get_text _ _ _ Hs). reflexivity.
  - do 2 eexists. split; [vm_compute; reflexivity|].
    split; [reflexivity|]. split; [reflexivity|].
    split; [vm_compute; tauto|]. split; [reflexivity|].
    split; [|reflexivity].
    vm_compute. intros H. repeat (destruct H as [H|H]; [discriminate H|]). exact H.
Qed.

Lemma title_keeps_inner_whitespace_witness :
  exists full, extract_soup spaced_title_doc = Ok (U "A  B" ++ [NBSP] ++ U "C", full)
               /\ ~ In NBSP full.
Proof.
  exact (proj1 title_keeps_inner_whitespace spaced_title_doc
           (Tag (Element (U "title") ∅) [Text NavigableString (U "A  B" ++ [NBSP] ++ U "C")])
           (U "A  B" ++ [NBSP] ++ U "C") eq_refl eq_refl).
Defined.

(** ** C9: the headers of the combined export *)

Lemma header_header_line (idx : N) (r : Row) :
  header idx r = header_line idx (str_or (title r) (U "(no title)")) (url r) ++ [NL].
Proof. unfold header, header_line. rewrite <- !app_assoc. reflexivity. Qed.


Lemma trim_end_after (a b : str) (c : char) :
  isspace c = false -> trim_end (a ++ c :: b) = a ++ c :: trim_end b.
Proof.
  intros Hc. induction a as [|x a IH]; cbn [app trim_end].
  - rewrite Hc. destruct (trim_end b); reflexivity.
  - rewrite IH. destruct a; reflexivity.
Qed.

Lemma trim_end_head (c : char) (s : str) :
  trim_end (c :: s) = [] \/ exists r, trim_end (c :: s) = c :: r.
Proof.
  cbn [trim_end]. destruct (trim_end s) as [|x r].
  - destruct (isspace c); [left; reflexivity | right; exists []; reflexivity].
  - right. eauto.
Qed.

Lemma combined_parts_app (idx : N) (rows1 rows2 : list Row) :
  combined_parts idx (rows1 ++ rows2) =
  combined_parts idx rows1 ++ combined_parts (idx + N.of_nat (length rows1)) rows2.
Proof.
  revert idx. induction rows1 as [|r rows1 IH]; intros idx.
  - simpl. rewrite N.add_0_r. reflexivity.
  - cbn [app combined_parts length]. rewrite IH. do 3 f_equal. lia.
Qed.


Lemma combined_parts_starts (idx : N) (r : Row) (rows : list Row) :
  exists s, concat (combined_parts idx (r :: rows)) = 61 :: s.
Proof. cbn [combined_parts concat]. unfold header. simpl. eauto. Qed.




(** * Further properties of the source *)

(** ** Trimming *)

Lemma trim_start_fixed (s : str) :
  match s with [] => True | c :: _ => isspace c = false end -> trim_start s = s.
Proof. destruct s as [|c s]; simpl; [trivial|]. intros ->. reflexivity. Qed.

Lemma trim_start_head (s : str) :
  match trim_start s with [] => True | c :: _ => isspace c = false end.
Proof.
  induction s as [|c s IH]; simpl; [trivial|].
  destruct (isspace c) eqn:E; [exact IH | exact E].
Qed.

Lemma trim_end_prefix (s : str) : exists t, s = trim_end s ++ t.
Proof.
  induction s as [|c s [t IH]]; [exists []; reflexivity|].
  cbn [trim_end]. destruct (trim_end s) as [|y r].
  - destruct (isspace c).
    + exists (c :: s). reflexivity.
    + exists t. simpl in *. congruence.
  - exists t. simpl in *. congruence.
Qed.

Lemma trim_start_suffix (s : str) : exists t, s = t ++ trim_start s.
Proof.
  induction s as [|c s [t IH]]; [exists []; reflexivity|].
  simpl. destruct (isspace c).
  - exists (c :: t). simpl. congruence.
  - exists []. reflexivity.
Qed.

Lemma trim_end_cons (c : char) (s : str) :
  trim_end (c :: s) =
  match trim_end s with
  | [] => if isspace c then [] else [c]
  | r => c :: r
  end.
Proof. reflexivity. Qed.

Lemma trim_end_idem (s : str) : trim_end (trim_end s) = trim_end s.
Proof.
  induction s as [|c s IH]; [reflexivity|].
  rewrite trim_end_cons. destruct (trim_end s) as [|y r] eqn:E.
  - destruct (isspace c) eqn:Ec; [reflexivity|]. simpl. rewrite Ec. reflexivity.
  - rewrite trim_end_cons, IH. reflexivity.
Qed.

Lemma trim_idem (s : str) : trim (trim s) = trim s.
Proof.
  unfold trim. rewrite (trim_start_fixed (trim_end (trim_start s))).
  - apply trim_end_idem.
  - pose proof (trim_start_head s) as H.
    destruct (trim_start s) as [|c t]; [exact I|].
    cbn [trim_end]. destruct (trim_end t); [|exact H].
    rewrite H. exact H.
Qed.

Lemma strip_idem (s : str) : strip (strip s) = strip s.
Proof. rewrite !strip_trim. apply trim_idem. Qed.

(** ** The white space of the normalised text *)

Lemma no_pair_cons (cls : char -> bool) (a : char) (s : str) :
  no_pair cls (a :: s) =
  match s with b :: _ => negb (cls a && cls b) | [] => true end && no_pair cls s.
Proof. reflexivity. Qed.

Lemma no_triple_cons (cls : char -> bool) (a : char) (s : str) :
  no_triple cls (a :: s) =
  match s with b :: c :: _ => negb (cls a && cls b && cls c) | _ => true end
  && no_triple cls s.
Proof. reflexivity. Qed.

Lemma no_pair_app (cls : char -> bool) (a b : str) :
  no_pair cls (a ++ b) = true -> no_pair cls a = true /\ no_pair cls b = true.
Proof.
  induction a as [|x a IH]; [simpl; auto|].
  cbn [app]. rewrite !no_pair_cons, !andb_true_iff. intros [H1 H2].
  destruct (IH H2) as [Ha Hb]. repeat split; try assumption.
  destruct a as [|y a']; [reflexivity | exact H1].
Qed.

Lemma no_triple_app (cls : char -> bool) (a b : str) :
  no_triple cls (a ++ b) = true -> no_triple cls a = true /\ no_triple cls b = true.
Proof.
  induction a as [|x a IH]; [simpl; auto|].
  cbn [app]. rewrite !no_triple_cons, !andb_true_iff. intros [H1 H2].
  destruct (IH H2) as [Ha Hb]. repeat split; try assumption.
  destruct a as [|y [|z a']]; try reflexivity. exact H1.
Qed.

Lemma no_pair_trim (cls : char -> bool) (s : str) :
  no_pair cls s = true -> no_pair cls (trim s) = true.
Proof.
  intros H. unfold trim.
  destruct (trim_start_suffix s) as [t Ht]. rewrite Ht in H.
  apply no_pair_app in H as [_ H].
  destruct (trim_end_prefix (trim_start s)) as [t' Ht']. rewrite Ht' in H.
  apply no_pair_app in H as [H _]. exact H.
Qed.

Lemma no_triple_trim (cls : char -> bool) (s : str) :
  no_triple cls s = true -> no_triple cls (trim s) = true.
Proof.
  intros H. unfold trim.
  destruct (trim_start_suffix s) as [t Ht]. rewrite Ht in H.
  apply no_triple_app in H as [_ H].
  destruct (trim_end_prefix (trim_start s)) as [t' Ht']. rewrite Ht' in H.
  apply no_triple_app in H as [H _]. exact H.
Qed.

Lemma squeeze_hspace_head (c : char) (s : str) :
  is_hspace c = false -> squeeze_hspace (c :: s) = c :: squeeze_hspace s.
Proof. intros H. cbn [squeeze_hspace]. rewrite H. reflexivity. Qed.

Lemma squeeze_no_pair (s : str) : no_pair is_hspace (squeeze_hspace s) = true.
Proof.
  induction s as [|c s IH]; [reflexivity|].
  cbn [squeeze_hspace]. destruct (is_hspace c) eqn:Ec.
  - destruct s as [|c' s']; [reflexivity|].
    destruct (is_hspace c') eqn:Ec'; [exact IH|].
    rewrite no_pair_cons, IH, andb_true_r.
    rewrite squeeze_hspace_head by exact Ec'. rewrite Ec', andb_false_r. reflexivity.
  - rewrite no_pair_cons, IH, andb_true_r, Ec.
    destruct (squeeze_hspace s); reflexivity.
Qed.

Lemma In_squeeze_source (x : char) (s : str) :
  In x (squeeze_hspace s) -> x = SPACE \/ (In x s /\ is_hspace x = false).
Proof.
  induction s as [|c s IH]; cbn [squeeze_hspace]; [intros []|].
  destruct (is_hspace c) eqn:Ec.
  - destruct s as [|c' s'].
    + intros [H|[]]. left. symmetry. exact H.
    + destruct (is_hspace c').
      * intros H. destruct (IH H) as [E|[E1 E2]]; [left; exact E|].
        right. split; [right; exact E1 | exact E2].
      * intros [H|H]; [left; symmetry; exact H|].
        destruct (IH H) as [E|[E1 E2]]; [left; exact E|].
        right. split; [right; exact E1 | exact E2].
  - intros [H|H].
    + right. subst x. split; [left; reflexivity | exact Ec].
    + destruct (IH H) as [E|[E1 E2]]; [left; exact E|].
      right. split; [right; exact E1 | exact E2].
Qed.

Lemma limit_newlines_head (s : str) : head (limit_newlines s) = head s.
Proof.
  induction s as [|c s IH]; [reflexivity|].
  cbn [limit_newlines].
  destruct (is_newline c && _) eqn:E; [|reflexivity].
  rewrite IH. apply andb_true_iff in E as [Ec E].
  destruct s as [|c1 [|c2 s']]; try discriminate.
  apply andb_true_iff in E as [E1 _].
  apply N.eqb_eq in Ec, E1. subst. reflexivity.
Qed.

Lemma limit_no_pair (s : str) :
  no_pair is_hspace s = true -> no_pair is_hspace (limit_newlines s) = true.
Proof.
  induction s as [|c s IH]; [reflexivity|].
  rewrite no_pair_cons, andb_true_iff. intros [H1 H2].
  cbn [limit_newlines]. destruct (is_newline c && _); [exact (IH H2)|].
  rewrite no_pair_cons, (IH H2), andb_true_r.
  pose proof (limit_newlines_head s) as Hh.
  destruct (limit_newlines s) as [|y r]; [reflexivity|].
  destruct s as [|b s']; [discriminate Hh|].
  simpl in Hh. injection Hh as ->. exact H1.
Qed.

Lemma limit_newlines_take2 (s : str) : take 2 (limit_newlines s) = take 2 s.
Proof.
  induction s as [|c s IH]; [reflexivity|].
  cbn [limit_newlines].
  destruct (is_newline c && _) eqn:E.
  - rewrite IH. apply andb_true_iff in E as [Ec E].
    destruct s as [|c1 [|c2 s']]; try discriminate.
    apply andb_true_iff in E as [E1 E2].
    apply N.eqb_eq in Ec, E1, E2. subst. reflexivity.
  - pose proof (limit_newlines_head s) as Hh.
    destruct (limit_newlines s) as [|y r]; destruct s as [|b s']; try discriminate Hh.
    + reflexivity.
    + simpl in Hh. injection Hh as ->. reflexivity.
Qed.

Lemma limit_no_triple (s : str) : no_triple is_newline (limit_newlines s) = true.
Proof.
  induction s as [|c s IH]; [reflexivity|].
  cbn [limit_newlines].
  destruct (is_newline c && _) eqn:E; [exact IH|].
  rewrite no_triple_cons, IH, andb_true_r.
  pose proof (limit_newlines_take2 s) as H2.
  destruct (limit_newlines s) as [|b [|b2 r]]; try reflexivity.
  destruct s as [|x [|x2 s']]; try discriminate H2.
  simpl in H2. injection H2 as -> ->.
  rewrite <- andb_assoc, E. reflexivity.
Qed.

Lemma no_pair_contains (s : str) :
  no_pair is_hspace s = true -> contains [SPACE; SPACE] s = false.
Proof.
  induction s as [|a s IH]; [reflexivity|].
  rewrite no_pair_cons, andb_true_iff. intros [H1 H2].
  cbn [contains]. rewrite (IH H2), orb_false_r.
  destruct s as [|b s']; cbn [startswith]; [apply andb_false_r|].
  destruct (SPACE =? a) eqn:Ea; [|reflexivity].
  destruct (SPACE =? b) eqn:Eb; [|reflexivity].
  apply N.eqb_eq in Ea, Eb. subst. discriminate H1.
Qed.

Lemma no_triple_contains (s : str) :
  no_triple is_newline s = true -> contains [NL; NL; NL] s = false.
Proof.
  induction s as [|a s IH]; [reflexivity|].
  rewrite no_triple_cons, andb_true_iff. intros [H1 H2].
  cbn [contains]. rewrite (IH H2), orb_false_r.
  destruct s as [|b [|c s']]; cbn [startswith];
    [apply andb_false_r | rewrite !andb_false_r; reflexivity |].
  destruct (NL =? a) eqn:Ea; [|reflexivity].
  destruct (NL =? b) eqn:Eb; [|reflexivity].
  destruct (NL =? c) eqn:Ec; [|reflexivity].
  apply N.eqb_eq in Ea, Eb, Ec. subst. discriminate H1.
Qed.

(** The text before the final [strip()], by the steps of [NormalizerSpec]. *)
Lemma normalize_steps (parts : list str) :
  normalize parts =
  trim (limit_newlines (squeeze_hspace (replace NBSP SPACE (join [NL]
    (map strip (filter (fun p => truthy (strip p) = true) parts)))))).
Proof.
  unfold normalize, re_sub.
  rewrite re_sub_squeeze, re_sub_limit, strip_trim by constructor. reflexivity.
Qed.

(** X1. The text [extract_all_visible_text] builds (lines 63 to 66) has no
    tab and no non-breaking space, no two consecutive spaces, no three
    consecutive newlines, and no white space at either end. *)
Theorem normalize_whitespace (parts : list str) :
  let full := normalize parts in
  ~ In TAB full /\ ~ In NBSP full /\
  contains [SPACE; SPACE] full = false /\
  contains [NL; NL; NL] full = false /\
  strip full = full.
Proof.
  intros full. subst full. split; [|split; [|split; [|split]]].
  - rewrite normalize_steps. intros H.
    apply In_trim_end, In_trim_start, In_limit_newlines, In_squeeze_source in H.
    destruct H as [H|[_ H]]; discriminate H.
  - apply normalize_nbsp_free.
  - rewrite normalize_steps. apply no_pair_contains, no_pair_trim, limit_no_pair, squeeze_no_pair.
  - rewrite normalize_steps. apply no_triple_contains, no_triple_trim, limit_no_triple.
  - unfold normalize. apply strip_idem.
Qed.

Lemma normalize_no_tab (parts : list str) : ~ In TAB (normalize parts).
Proof.
  rewrite normalize_steps. intros H.
  apply In_trim_end, In_trim_start, In_limit_newlines, In_squeeze_source in H.
  destruct H as [H|[_ H]]; discriminate H.
Qed.

Lemma normalize_no_pair (parts : list str) :
  no_pair is_hspace (normalize parts) = true.
Proof. rewrite normalize_steps. apply no_pair_trim, limit_no_pair, squeeze_no_pair. Qed.

Lemma normalize_no_triple (parts : list str) :
  no_triple is_newline (normalize parts) = true.
Proof. rewrite normalize_steps. apply no_triple_trim, limit_no_triple. Qed.

Lemma replace_fixed (old new : char) (s : str) :
  ~ In old s -> replace old new s = s.
Proof.
  unfold replace. induction s as [|c s IH]; [reflexivity|].
  intros H. cbn [map]. rewrite IH by (intros H'; apply H; right; exact H').
  destruct (c =? old) eqn:E; [|reflexivity].
  apply N.eqb_eq in E. exfalso. apply H. left. exact E.
Qed.

Lemma is_hspace_cases (c : char) : is_hspace c = true -> c = SPACE \/ c = TAB.
Proof.
  unfold is_hspace. rewrite orb_true_iff, !N.eqb_eq. trivial.
Qed.

Lemma squeeze_fixed (s : str) :
  ~ In TAB s -> no_pair is_hspace s = true -> squeeze_hspace s = s.
Proof.
  induction s as [|c s IH]; [reflexivity|].
  intros Ht. rewrite no_pair_cons, andb_true_iff. intros [H1 H2].
  assert (Ht' : ~ In TAB s) by (intros H; apply Ht; right; exact H).
  cbn [squeeze_hspace]. destruct (is_hspace c) eqn:Ec.
  - assert (c = SPACE) as ->.
    { destruct (is_hspace_cases c Ec) as [E|E]; [exact E|].
      exfalso. apply Ht. left. exact E. }
    destruct s as [|c' s']; [reflexivity|].
    destruct (is_hspace c') eqn:Ec'.
    + discriminate H1.
    + rewrite (IH Ht' H2). reflexivity.
  - rewrite (IH Ht' H2). reflexivity.
Qed.

Lemma limit_fixed (s : str) :
  no_triple is_newline s = true -> limit_newlines s = s.
Proof.
  induction s as [|c s IH]; [reflexivity|].
  rewrite no_triple_cons, andb_true_iff. intros [H1 H2].
  cbn [limit_newlines]. rewrite (IH H2).
  destruct (is_newline c && _) eqn:E; [|reflexivity].
  apply andb_true_iff in E as [Ec E].
  destruct s as [|c1 [|c2 s']]; try discriminate E.
  rewrite Ec in H1. simpl in H1. rewrite E in H1. discriminate H1.
Qed.

(** X2. Normalising a normalised text changes nothing: the text returned
    by [extract_all_visible_text], given back as the only part, comes out
    as it is. *)
Theorem normalize_idempotent (parts : list str) :
  normalize [normalize parts] = normalize parts.
Proof.
  pose proof (normalize_no_tab parts) as Htab.
  pose proof (normalize_nbsp_free parts) as Hnb.
  pose proof (normalize_no_pair parts) as Hp.
  pose proof (normalize_no_triple parts) as Ht.
  assert (Hs : strip (normalize parts) = normalize parts)
    by (unfold normalize; apply strip_idem).
  set (full := normalize parts) in *.
  rewrite normalize_steps.
  destruct full as [|c r] eqn:E; [reflexivity|]. rewrite <- E in *.
  rewrite filter_cons_True by (rewrite Hs, E; reflexivity).
  rewrite filter_nil. cbn [map join]. rewrite Hs.
  rewrite (replace_fixed _ _ _ Hnb), (squeeze_fixed _ Htab Hp), (limit_fixed _ Ht).
  rewrite <- strip_trim. exact Hs.
Qed.

(** X3. The title [extract_all_visible_text] returns has no white space at
    either end, whatever the document. *)
Theorem title_is_trimmed (soup : node) :
  exists ttl full : str, extract_soup soup = Ok (ttl, full) /\ strip ttl = ttl.
Proof.
  unfold extract_soup.
  destruct (soup_title soup) as [t|]; simpl; [|eauto].
  destruct (tag_string t) as [[k s]|] eqn:Hs; simpl; [|eauto].
  destruct (truthy s); simpl; [|eauto].
  rewrite (tag_string_get_text _ _ _ Hs).
  do 2 eexists. split; [reflexivity|].
  destruct (interesting k); [apply strip_idem | reflexivity].
Qed.

(** ** What the collector yields, and in which order *)

(** X4. [visible_text_nodes] yields, in document order, exactly the
    contents of the strings of the document that are not comments, are not
    in a [script], [style], [noscript] or [template] tag at any depth,
    whose parent is not hidden and that are not blank. *)
Theorem visible_text_nodes_exactly (soup : node) :
  visible_text_nodes soup =
  map (fun e => str_of (self e))
      (filter (fun e => shown e = true) (kept_strings soup)).
Proof.
  unfold visible_text_nodes. rewrite sanitized_kept. apply visible_loop_shown.
Qed.

Lemma sublist_map {A B} (f : A -> B) (l k : list A) :
  l `sublist_of` k -> map f l `sublist_of` map f k.
Proof. induction 1; simpl; constructor; assumption. Qed.

Lemma sublist_flat_map {A B} (f g : A -> list B) (l : list A) :
  Forall (fun x => f x `sublist_of` g x) l ->
  flat_map f l `sublist_of` flat_map g l.
Proof.
  induction 1 as [|x l Hx _ IH]; simpl; [constructor|].
  apply sublist_app; assumption.
Qed.

Lemma filter_flat_map {A B} (P : B -> Prop) `{!forall x, Decision (P x)}
    (f : A -> list B) (l : list A) :
  filter P (flat_map f l) = flat_map (fun x => filter P (f x)) l.
Proof.
  induction l as [|x l IH]; simpl; [reflexivity|].
  rewrite filter_app, IH. reflexivity.
Qed.

Lemma strings_outside_sublist (p : node -> bool) (par : element) (n : node) :
  strings_outside p par n `sublist_of`
  filter (fun e => is_string (self e) = true) (subtree par n).
Proof.
  revert par. induction n as [el cs IH | k s] using node_ind'; intros par.
  - rewrite subtree_unfold, filter_cons_False by (simpl; discriminate).
    cbn [strings_outside descendants]. rewrite filter_flat_map.
    apply sublist_flat_map.
    eapply Forall_impl; [exact IH|]. intros c Hc. simpl.
    destruct (p c); [apply sublist_nil_l | apply Hc].
  - rewrite subtree_unfold, filter_cons_True by reflexivity. reflexivity.
Qed.

Lemma kept_strings_sublist (soup : node) :
  kept_strings soup `sublist_of` find_all is_string soup.
Proof.
  destruct soup as [el cs|k s]; [|constructor].
  unfold kept_strings, find_all. cbn [descendants]. rewrite filter_flat_map.
  apply sublist_flat_map, Forall_forall. intros c _.
  destruct (is_tag_named unwanted c || is_instance Comment c);
    [apply sublist_nil_l | apply strings_outside_sublist].
Qed.

(** X5. The strings [visible_text_nodes] yields are strings of the
    document as parsed, in the order of the document (a node before its
    contents, contents from left to right): none is made up, repeated or
    moved. *)
Theorem visible_text_nodes_in_document_order (soup : node) :
  visible_text_nodes soup `sublist_of`
  map (fun e => str_of (self e)) (find_all is_string soup).
Proof.
  unfold visible_text_nodes. rewrite sanitized_kept, visible_loop_shown.
  apply sublist_map. etransitivity; [apply sublist_filter|].
  apply kept_strings_sublist.
Qed.

(** ** The two loops of the sanitizer *)

Lemma remove_all_comm (p q : node -> bool) (n : node) :
  shallow p -> shallow q ->
  remove_all p (remove_all q n) = remove_all q (remove_all p n).
Proof.
  intros Hp Hq. induction n as [el cs IH | k s] using node_ind'; [|reflexivity].
  cbn [remove_all]. f_equal.
  induction IH as [|c cs Hc _ IHcs]; [reflexivity|].
  cbn [omap list_omap].
  destruct (q c) eqn:Eq; destruct (p c) eqn:Ep; cbn [omap list_omap];
    rewrite ?Hp, ?Hq, ?Eq, ?Ep; try exact IHcs.
  rewrite Hc, IHcs. reflexivity.
Qed.

Lemma remove_all_idem (p : node -> bool) (n : node) :
  shallow p -> remove_all p (remove_all p n) = remove_all p n.
Proof. intros Hp. apply remove_all_noop, remove_all_clean, Hp. Qed.

(** X6. The order of the two loops of the sanitizer does not matter:
    extracting the comments first and decomposing the unwanted tags after
    leaves the same tree. *)
Theorem sanitize_loops_commute (soup : node) :
  sanitize soup =
  remove_all (is_tag_named unwanted) (remove_all (is_instance Comment) soup).
Proof.
  unfold sanitize. apply remove_all_comm;
    [apply is_instance_shallow | apply is_tag_named_shallow].
Qed.

(** X7. Comments, and the unwanted tags, play no part in the text: a
    document from which they were removed beforehand yields the same
    strings and extracts to the same text. *)
Theorem comments_do_not_show (soup : node) :
  visible_text_nodes (remove_all (is_instance Comment) soup) = visible_text_nodes soup
  /\ visible_text_nodes (remove_all (is_tag_named unwanted) soup) = visible_text_nodes soup.
Proof.
  unfold visible_text_nodes, sanitize. split.
  - rewrite (remove_all_comm (is_tag_named unwanted) (is_instance Comment))
      by (apply is_tag_named_shallow || apply is_instance_shallow).
    rewrite remove_all_idem by apply is_instance_shallow.
    rewrite (remove_all_comm (is_instance Comment) (is_tag_named unwanted))
      by (apply is_tag_named_shallow || apply is_instance_shallow).
    reflexivity.
  - rewrite remove_all_idem by apply is_tag_named_shallow. reflexivity.
Qed.

(** ** File names *)

Lemma digits_are_digits (fuel : nat) (i : N) (acc : str) :
  Forall (fun c => is_digit c = true) acc ->
  Forall (fun c => is_digit c = true) (digits fuel i acc).
Proof.
  revert i acc. induction fuel as [|fuel IH]; intros i acc Hacc; [exact Hacc|].
  cbn [digits].
  assert (Hd : is_digit (48 + i mod 10) = true).
  { unfold is_digit. pose proof (N.mod_lt i 10 ltac:(discriminate)) as Hm.
    set (m := i mod 10) in *. clearbody m.
    apply andb_true_iff. split; apply N.leb_le; lia. }
  destruct (i <? 10); [constructor; assumption|].
  apply IH. constructor; assumption.
Qed.

Lemma digits_value (fuel : nat) (i : N) (acc : str) :
  i < 2 ^ N.of_nat fuel ->
  fold_left (fun v c => 10 * v + (c - 48)) (digits fuel i acc) 0 =
  fold_left (fun v c => 10 * v + (c - 48)) acc i.
Proof.
  revert i acc. induction fuel as [|fuel IH]; intros i acc Hi.
  - simpl in Hi. assert (i = 0) as -> by lia. reflexivity.
  - rewrite Nat2N.inj_succ, N.pow_succ_r' in Hi.
    pose proof (N.mod_lt i 10 ltac:(discriminate)) as Hm.
    pose proof (N.div_mod i 10 ltac:(discriminate)) as Hdm.
    cbn [digits].
    set (m := i mod 10) in *. set (d := i / 10) in *.
    set (P := 2 ^ N.of_nat fuel) in *. clearbody m d P.
    destruct (i <? 10) eqn:E.
    + apply N.ltb_lt in E. cbn [fold_left]. f_equal. lia.
    + apply N.ltb_ge in E. rewrite IH by lia.
      cbn [fold_left]. f_equal. lia.
Qed.

Lemma str_of_int_digits (i : N) : Forall (fun c => is_digit c = true) (str_of_int i).
Proof. apply digits_are_digits. constructor. Qed.

Lemma str_of_int_value (i : N) : int_of_digits (str_of_int i) = i.
Proof.
  unfold int_of_digits, str_of_int. rewrite digits_value; [reflexivity|].
  rewrite Nat2N.inj_succ, N2Nat.id.
  destruct (N.eq_dec i 0) as [->|Hi]; [reflexivity|].
  apply N.log2_spec. lia.
Qed.

Lemma format_02d_digits (i : N) : Forall (fun c => is_digit c = true) (format_02d i).
Proof.
  unfold format_02d. apply Forall_app. split; [|apply str_of_int_digits].
  induction (2 - length (str_of_int i))%nat; simpl; constructor; auto.
Qed.

Lemma format_02d_value (i : N) : int_of_digits (format_02d i) = i.
Proof.
  unfold format_02d, int_of_digits. rewrite fold_left_app.
  replace (fold_left _ (repeat 48 _) 0) with 0; [apply str_of_int_value|].
  induction (2 - length (str_of_int i))%nat; simpl; auto.
Qed.

Lemma leading_digits_app (d rest : str) (c : char) :
  Forall (fun c => is_digit c = true) d -> is_digit c = false ->
  leading_digits (d ++ c :: rest) = d.
Proof.
  intros Hd Hc. induction Hd as [|x d Hx _ IH]; simpl.
  - rewrite Hc. reflexivity.
  - rewrite Hx, IH. reflexivity.
Qed.

Lemma safe_name_leading (urlparse : str -> ParseResult) (idx : N) (url : str) :
  int_of_digits (leading_digits (safe_name urlparse idx url)) = idx.
Proof.
  unfold safe_name. change (U "_") with [95].
  cbn [app]. rewrite leading_digits_app;
    [apply format_02d_value | apply format_02d_digits | reflexivity].
Qed.

(** X8. The index can be read back from a file name: the digits
    [safe_name] starts with, up to the first character that is not a
    digit, are the index, whatever the URL. *)
Theorem safe_name_index (urlparse : str -> ParseResult) (idx : N) (url : str) :
  int_of_digits (leading_digits (safe_name urlparse idx url)) = idx.
Proof. apply safe_name_leading. Qed.

Lemma zip_entries_indices (urlparse : str -> ParseResult) (idx : N) (rows : list Row) (e : str * str) :
  In e (zip_entries urlparse idx rows) ->
  idx <= int_of_digits (leading_digits (fst e)).
Proof.
  revert idx. induction rows as [|r rows IH]; intros idx; [intros []|].
  cbn [zip_entries]. intros [<-|H].
  - cbn [fst]. rewrite safe_name_leading. lia.
  - apply IH in H. lia.
Qed.

(** X9. The entries written to the ZIP archive have pairwise different
    names, whatever the URLs of the rows (equal URLs included). *)
Theorem zip_names_distinct (urlparse : str -> ParseResult) (rows : list Row) :
  NoDup (map fst (zip_entries urlparse 1 rows)).
Proof.
  generalize 1 as idx. induction rows as [|r rows IH]; intros idx; [constructor|].
  cbn [zip_entries map fst]. constructor; [|apply IH].
  intros Hin. apply list_elem_of_In, in_map_iff in Hin as [e [He Hin]].
  apply zip_entries_indices in Hin. rewrite He, safe_name_leading in Hin. lia.
Qed.

Lemma In_replace (old new x : char) (s : str) :
  In x (replace old new s) -> x = new \/ In x s.
Proof.
  unfold replace. rewrite in_map_iff. intros [c [H Hc]].
  destruct (c =? old); [left; congruence | right; congruence].
Qed.

Lemma replace_old_free (old new : char) (s : str) :
  old <> new -> ~ In old (replace old new s).
Proof.
  intros Hne. unfold replace. rewrite in_map_iff. intros [c [H _]].
  destruct (c =? old) eqn:E; [congruence|].
  apply N.eqb_neq in E. congruence.
Qed.

Lemma lstrip_chars_suffix (chars s : str) : exists t, s = t ++ lstrip_chars chars s.
Proof.
  induction s as [|c s [t IH]]; [exists []; reflexivity|].
  cbn [lstrip_chars]. case_bool_decide.
  - exists (c :: t). simpl. congruence.
  - exists []. reflexivity.
Qed.

Lemma lstrip_chars_head (chars s : str) :
  match lstrip_chars chars s with [] => True | c :: _ => c ∉ chars end.
Proof.
  induction s as [|c s IH]; [exact I|].
  cbn [lstrip_chars]. case_bool_decide; assumption.
Qed.

Lemma In_lstrip_chars (chars s : str) (x : char) :
  In x (lstrip_chars chars s) -> In x s.
Proof.
  destruct (lstrip_chars_suffix chars s) as [t Ht]. intros H.
  rewrite Ht. apply in_or_app. right. exact H.
Qed.

Lemma In_strip_chars (chars s : str) (x : char) :
  In x (strip_chars chars s) -> In x s.
Proof.
  unfold strip_chars. intros H.
  apply in_rev, In_lstrip_chars, in_rev, In_lstrip_chars in H. exact H.
Qed.

Lemma In_take (n : nat) (s : str) (x : char) : In x (take n s) -> In x s.
Proof.
  intros H. rewrite <- (firstn_skipn n s). apply in_or_app. left. exact H.
Qed.

Lemma In_flush_1 (repl run : str) (x : char) :
  In x (flush 1 repl run) -> In x repl.
Proof. unfold flush. destruct run; simpl; [intros [] | trivial]. Qed.

Lemma In_re_sub_1 (cls : char -> bool) (repl run s : str) (x : char) :
  In x (re_sub_runs cls 1 repl run s) ->
  In x repl \/ (In x s /\ cls x = false).
Proof.
  revert run. induction s as [|c s IH]; intros run; cbn [re_sub_runs].
  - intros H. left. exact (In_flush_1 _ _ _ H).
  - destruct (cls c) eqn:Ec.
    + intros H. destruct (IH _ H) as [E|[E1 E2]]; [left; exact E|].
      right. split; [right; exact E1 | exact E2].
    + intros H. apply in_app_or in H as [H|[H|H]].
      * left. exact (In_flush_1 _ _ _ H).
      * right. subst x. split; [left; reflexivity | exact Ec].
      * destruct (IH _ H) as [E|[E1 E2]]; [left; exact E|].
        right. split; [right; exact E1 | exact E2].
Qed.

(** The query suffix of a file name is made of letters, digits and [_]. *)
Lemma query_suffix_chars (q : str) (x : char) :
  In x (strip_chars (U "_") (take 24 (re_sub (fun c => negb (is_alnum c)) 1 (U "_") q))) ->
  x = 95 \/ is_alnum x = true.
Proof.
  intros H. apply In_strip_chars, In_take, In_re_sub_1 in H.
  destruct H as [[H|[]]|[_ H]]; [left; symmetry; exact H|].
  right. apply negb_false_iff. exact H.
Qed.

Lemma safe_name_stem (urlparse : str -> ParseResult) (idx : N) (url : str) :
  safe_name urlparse idx url =
  format_02d idx ++ U "_" ++
  (if truthy (strip (query (urlparse url)))
   then name_stem (urlparse url) ++ U "_" ++
        strip_chars (U "_")
          (take 24 (re_sub (fun c => negb (is_alnum c)) 1 (U "_")
                      (strip (query (urlparse url)))))
   else name_stem (urlparse url))
  ++ U ".txt".
Proof.
  unfold safe_name, name_stem.
  set (host := replace 58 95 _). set (base := replace 47 95 _).
  assert (Hb : truthy base = true).
  { unfold base, str_or.
    destruct (truthy (strip_chars (U "/") (path (urlparse url)))) eqn:E.
    - destruct (strip_chars (U "/") (path (urlparse url))); [discriminate E | reflexivity].
    - reflexivity. }
  destruct (truthy (strip (query (urlparse url)))).
  - unfold str_or at 1. destruct base as [|b base']; [discriminate Hb|].
    cbn [app truthy]. rewrite <- !app_assoc. reflexivity.
  - unfold str_or at 1. rewrite Hb. rewrite <- !app_assoc. reflexivity.
Qed.

(** X10. A file name has no [/] in it, provided the host of the URL has
    none (as for every result of [urlparse]): the slashes of the path
    and whatever the query holds are replaced. *)
Theorem safe_name_no_slash (urlparse : str -> ParseResult) (idx : N) (url : str) :
  ~ In 47 (netloc (urlparse url)) ->
  ~ In 47 (safe_name urlparse idx url).
Proof.
  intros Hn. rewrite safe_name_stem. intros H.
  assert (Hstem : ~ In 47 (name_stem (urlparse url))).
  { unfold name_stem. intros Hs. apply in_app_or in Hs as [Hs|Hs].
    - apply In_replace in Hs as [Hs|Hs]; [discriminate Hs|].
      unfold str_or in Hs. destruct (truthy (netloc (urlparse url))); [exact (Hn Hs)|].
      vm_compute in Hs. repeat (destruct Hs as [Hs|Hs]; [discriminate Hs|]). exact Hs.
    - apply in_app_or in Hs as [Hs|Hs].
      + vm_compute in Hs. destruct Hs as [Hs|[]]. discriminate Hs.
      + exact (replace_old_free 47 95 _ ltac:(discriminate) Hs). }
  apply in_app_or in H as [H|H].
  { pose proof (format_02d_digits idx) as Hd. rewrite Forall_forall in Hd.
    apply list_elem_of_In, Hd in H. discriminate H. }
  apply in_app_or in H as [H|H].
  { vm_compute in H. destruct H as [H|[]]. discriminate H. }
  apply in_app_or in H as [H|H].
  - destruct (truthy (strip (query (urlparse url)))); [|exact (Hstem H)].
    apply in_app_or in H as [H|H]; [exact (Hstem H)|].
    apply in_app_or in H as [H|H].
    + vm_compute in H. destruct H as [H|[]]. discriminate H.
    + apply query_suffix_chars in H as [H|H]; discriminate H.
  - vm_compute in H. repeat (destruct H as [H|H]; [discriminate H|]). exact H.
Qed.

Lemma safe_name_no_slash_witness :
  ~ In 47 (safe_name example_urlparse 3 (U "https://example.com:8080/a/b/?x=1&y=2")).
Proof.
  apply safe_name_no_slash.
  vm_compute. intros H. repeat (destruct H as [H|H]; [discriminate H|]). exact H.
Defined.

Lemma last_rev (l : str) : last (rev l) = head l.
Proof. destruct l as [|x l]; [reflexivity|]. simpl. apply last_snoc. Qed.

Lemma head_rev (l : str) : head (rev l) = last l.
Proof. rewrite <- (rev_involutive l) at 2. symmetry. apply last_rev. Qed.

Lemma lstrip_chars_length (chars s : str) :
  (length (lstrip_chars chars s) <= length s)%nat.
Proof.
  destruct (lstrip_chars_suffix chars s) as [t Ht].
  rewrite Ht at 2. rewrite length_app. lia.
Qed.

Lemma strip_chars_length (chars s : str) :
  (length (strip_chars chars s) <= length s)%nat.
Proof.
  unfold strip_chars.
  pose proof (lstrip_chars_length chars (rev (lstrip_chars chars s))) as H1.
  pose proof (lstrip_chars_length chars s) as H2.
  rewrite length_rev in H1. rewrite length_rev. lia.
Qed.

Lemma strip_chars_ends (chars s : str) (c : char) :
  c ∈ chars ->
  head (strip_chars chars s) <> Some c /\ last (strip_chars chars s) <> Some c.
Proof.
  intros Hc. unfold strip_chars.
  set (l := lstrip_chars chars s).
  pose proof (lstrip_chars_head chars s) as Hl. fold l in Hl.
  pose proof (lstrip_chars_head chars (rev l)) as Hr.
  destruct (lstrip_chars_suffix chars (rev l)) as [t Ht].
  set (r := lstrip_chars chars (rev l)) in *.
  rewrite head_rev, last_rev. split.
  - destruct r as [|y r'] eqn:Er; [discriminate|]. rewrite <- Er in *.
    assert (E : last r = head l).
    { rewrite <- last_rev, Ht, last_app.
      destruct (last r) eqn:E'; [reflexivity|].
      rewrite Er in E'. apply last_None in E'. discriminate E'. }
    rewrite E. destruct l as [|x l']; [discriminate|].
    simpl. intros [= ->]. exact (Hl Hc).
  - destruct r as [|y r']; [discriminate|].
    simpl. intros [= ->]. exact (Hr Hc).
Qed.

(** X11. When the URL has a query, the file name ends with a suffix made
    from it, between the host and path part and [.txt]: at most 24
    characters, letters, digits and [_] only, and no [_] at its start or
    end. *)
Theorem safe_name_query_suffix (urlparse : str -> ParseResult) (idx : N) (url : str) :
  truthy (strip (query (urlparse url))) = true ->
  exists suffix : str,
    safe_name urlparse idx url =
      format_02d idx ++ U "_" ++ name_stem (urlparse url) ++ U "_" ++ suffix ++ U ".txt"
    /\ (length suffix <= 24)%nat
    /\ Forall (fun c => c = 95 \/ is_alnum c = true) suffix
    /\ head suffix <> Some 95 /\ last suffix <> Some 95.
Proof.
  intros Hq. rewrite safe_name_stem, Hq.
  exists (strip_chars (U "_")
            (take 24 (re_sub (fun c => negb (is_alnum c)) 1 (U "_")
                        (strip (query (urlparse url)))))).
  split; [rewrite <- !app_assoc; reflexivity|].
  split; [|split].
  - pose proof (strip_chars_length (U "_")
      (take 24 (re_sub (fun c => negb (is_alnum c)) 1 (U "_")
                  (strip (query (urlparse url)))))) as H.
    rewrite length_take in H. lia.
  - apply Forall_forall. intros x Hx.
    apply list_elem_of_In in Hx. exact (query_suffix_chars _ _ Hx).
  - apply strip_chars_ends. vm_compute. left.
Qed.

Lemma safe_name_query_suffix_witness :
  exists suffix : str,
    safe_name example_urlparse 3 [] =
      U "03_example.com_8080_a_b_" ++ suffix ++ U ".txt"
    /\ (length suffix <= 24)%nat
    /\ Forall (fun c => c = 95 \/ is_alnum c = true) suffix
    /\ head suffix <> Some 95 /\ last suffix <> Some 95.
Proof. exact (safe_name_query_suffix example_urlparse 3 [] eq_refl). Defined.

Lemma lstrip_chars_all (chars s : str) :
  Forall (fun c => c ∈ chars) s -> lstrip_chars chars s = [].
Proof.
  induction 1 as [|c s Hc _ IH]; [reflexivity|].
  cbn [lstrip_chars]. rewrite bool_decide_eq_true_2 by exact Hc. exact IH.
Qed.

Lemma trim_start_all (s : str) :
  Forall (fun c => isspace c = true) s -> trim_start s = [].
Proof. induction 1 as [|c s Hc _ IH]; [reflexivity|]. simpl. rewrite Hc. exact IH. Qed.

(** X12. A URL of which [urlparse] finds no host, no path but slashes and
    no query but white space gets the name of the fallbacks,
    [NN_site_index.txt]. *)
Theorem safe_name_fallbacks (urlparse : str -> ParseResult) (idx : N) (url : str) :
  netloc (urlparse url) = [] ->
  Forall (fun c => c = 47) (path (urlparse url)) ->
  Forall (fun c => isspace c = true) (query (urlparse url)) ->
  safe_name urlparse idx url = format_02d idx ++ U "_site_index.txt".
Proof.
  intros Hn Hp Hq. unfold safe_name.
  rewrite Hn, strip_trim. unfold trim. rewrite (trim_start_all _ Hq).
  unfold strip_chars. rewrite (lstrip_chars_all (U "/") (path (urlparse url))).
  - reflexivity.
  - eapply Forall_impl; [exact Hp|]. intros c ->. vm_compute. left.
Qed.

Lemma safe_name_fallbacks_witness :
  safe_name (fun _ => {| netloc := []; path := U "//"; query := U "  " |}) 7 (U "//?  ")
  = U "07_site_index.txt".
Proof.
  apply (safe_name_fallbacks (fun _ => {| netloc := []; path := U "//"; query := U "  " |}) 7).
  - reflexivity.
  - repeat constructor.
  - repeat constructor.
Defined.

(** ** The URLs of the batch *)

(** Induction on a string that reaches the tail and the tail of the tail,
    as [splitlines] does after a carriage return. *)
Lemma str_ind2 (Q : str -> Prop) :
  Q [] -> (forall c s, Q s -> Q (tail s) -> Q (c :: s)) -> forall s, Q s.
Proof.
  intros H0 Hc s. enough (Q s /\ Q (tail s)) as [H _] by exact H.
  induction s as [|c s [IH1 IH2]]; [split; exact H0|].
  split; [apply Hc; assumption | exact IH1].
Qed.

Lemma splitlines_from_break (cur s : str) (c : char) :
  is_linebreak c = true ->
  splitlines_from cur (c :: s) = cur :: splitlines_from [] s \/
  exists s', s = 10 :: s' /\
             splitlines_from cur (c :: s) = cur :: splitlines_from [] s'.
Proof.
  intros Hc. cbn [splitlines_from]. rewrite Hc.
  destruct s as [|c' s']; [left; reflexivity|].
  destruct ((c =? 13) && (c' =? 10)) eqn:E; [right | left; reflexivity].
  apply andb_true_iff in E as [_ E]. apply N.eqb_eq in E. subst c'.
  exists s'. split; reflexivity.
Qed.

Lemma splitlines_from_char (cur s : str) (c : char) :
  is_linebreak c = false ->
  splitlines_from cur (c :: s) = splitlines_from (cur ++ [c]) s.
Proof. intros Hc. cbn [splitlines_from]. rewrite Hc. reflexivity. Qed.

Lemma splitlines_from_lines (s cur line : str) :
  In line (splitlines_from cur s) ->
  (forall x, In x line -> In x cur \/ In x s) /\
  (Forall (fun c => is_linebreak c = false) cur ->
   Forall (fun c => is_linebreak c = false) line).
Proof.
  revert cur line. induction s as [|c s IH1 IH2] using str_ind2; intros cur line.
  - destruct cur; simpl; [intros []|]. intros [<-|[]]. auto.
  - destruct (is_linebreak c) eqn:Ec.
    + intros Hin.
      destruct (splitlines_from_break cur s c Ec) as [E|[s' [-> E]]];
        rewrite E in Hin; clear E; destruct Hin as [<-|H].
      * split; auto.
      * destruct (IH1 _ _ H) as [Ha Hb]. split.
        -- intros x Hx. destruct (Ha x Hx) as [[]|Hs]. right. right. exact Hs.
        -- intros _. apply Hb. constructor.
      * split; auto.
      * destruct (IH2 _ _ H) as [Ha Hb]. split.
        -- intros x Hx. destruct (Ha x Hx) as [[]|Hs]. right. right. right. exact Hs.
        -- intros _. apply Hb. constructor.
    + rewrite (splitlines_from_char _ _ _ Ec). intros H.
      destruct (IH1 _ _ H) as [Ha Hb]. split.
      * intros x Hx. destruct (Ha x Hx) as [Hc|Hs]; [|right; right; exact Hs].
        apply in_app_or in Hc as [Hc|[<-|[]]]; [left; exact Hc | right; left; reflexivity].
      * intros Hcur. apply Hb, Forall_app. split; [exact Hcur|].
        constructor; [exact Ec | constructor].
Qed.

Lemma splitlines_from_covers (s cur : str) (x : char) :
  In x cur \/ (In x s /\ is_linebreak x = false) ->
  exists line, In line (splitlines_from cur s) /\ In x line.
Proof.
  revert cur. induction s as [|c s IH1 IH2] using str_ind2; intros cur.
  - intros [H|[[] _]]. destruct cur as [|y cur']; [destruct H|].
    exists (y :: cur'). split; [left; reflexivity | exact H].
  - destruct (is_linebreak c) eqn:Ec.
    + intros Hx.
      destruct (splitlines_from_break cur s c Ec) as [E|[s' [-> E]]]; rewrite E; clear E.
      * destruct Hx as [H|[[<-|H] Hx]].
        -- exists cur. split; [left; reflexivity | exact H].
        -- congruence.
        -- destruct (IH1 [] (or_intror (conj H Hx))) as [line [Hl Hin]].
           exists line. split; [right; exact Hl | exact Hin].
      * destruct Hx as [H|[[<-|[<-|H]] Hx]].
        -- exists cur. split; [left; reflexivity | exact H].
        -- congruence.
        -- discriminate Hx.
        -- destruct (IH2 [] (or_intror (conj H Hx))) as [line [Hl Hin]].
           exists line. split; [right; exact Hl | exact Hin].
    + rewrite (splitlines_from_char _ _ _ Ec). intros H. apply IH1.
      destruct H as [H|[[<-|H] Hx]].
      * left. apply in_or_app. left. exact H.
      * left. apply in_or_app. right. left. reflexivity.
      * right. split; assumption.
Qed.

Lemma linebreak_isspace (c : char) : is_linebreak c = true -> isspace c = true.
Proof.
  unfold is_linebreak, isspace.
  rewrite !orb_true_iff, !andb_true_iff, !N.leb_le, !N.eqb_eq. lia.
Qed.

Lemma Forall_trim (P : char -> Prop) (s : str) : Forall P s -> Forall P (trim s).
Proof.
  intros H. unfold trim.
  destruct (trim_start_suffix s) as [t Ht]. rewrite Ht in H.
  apply Forall_app in H as [_ H].
  destruct (trim_end_prefix (trim_start s)) as [t' Ht']. rewrite Ht' in H.
  apply Forall_app in H as [H _]. exact H.
Qed.

Lemma In_trim (x : char) (s : str) : isspace x = false -> In x s -> In x (trim s).
Proof.
  intros Hx. unfold trim. intros H.
  assert (H1 : In x (trim_start s)).
  { induction s as [|c s IH]; [destruct H|]. simpl.
    destruct (isspace c) eqn:Ec; [|exact H].
    destruct H as [->|H]; [congruence | exact (IH H)]. }
  clear H. induction (trim_start s) as [|c r IH]; [destruct H1|].
  rewrite trim_end_cons. destruct H1 as [->|H1].
  - destruct (trim_end r); [rewrite Hx|]; left; reflexivity.
  - specialize (IH H1). destruct (trim_end r); [destruct IH | right; exact IH].
Qed.

Lemma fromkeys_from_spec (seen keys : list str) :
  NoDup (fromkeys_from seen keys) /\
  (forall k, In k (fromkeys_from seen keys) -> In k keys /\ ~ In k seen) /\
  (forall k, In k keys -> ~ In k seen -> In k (fromkeys_from seen keys)) /\
  fromkeys_from seen keys `sublist_of` keys.
Proof.
  revert seen. induction keys as [|k keys IH]; intros seen.
  - simpl. split; [constructor | split; [intros k [] | split; [intros k [] | constructor]]].
  - destruct (IH seen) as (N1 & I1 & C1 & S1).
    destruct (IH (k :: seen)) as (N2 & I2 & C2 & S2).
    cbn [fromkeys_from]. case_bool_decide as Hk; rewrite list_elem_of_In in Hk.
    + split; [exact N1|]. split; [|split].
      * intros k0 H. destruct (I1 _ H) as [Ha Hb]. split; [right; exact Ha | exact Hb].
      * intros k0 [<-|H] Hs; [contradiction | exact (C1 _ H Hs)].
      * constructor. exact S1.
    + split; [|split; [|split]].
      * constructor; [|exact N2].
        rewrite list_elem_of_In. intros H. apply I2 in H as [_ H]. apply H. left. reflexivity.
      * intros k0 [<-|H]; [split; [left; reflexivity | exact Hk]|].
        destruct (I2 _ H) as [Ha Hb]. split; [right; exact Ha|].
        intros Hs. apply Hb. right. exact Hs.
      * intros k0 [<-|H] Hs; [left; reflexivity|].
        destruct (decide (k = k0)) as [<-|Hne]; [left; reflexivity|].
        right. apply C2; [exact H|]. intros [E|E]; [exact (Hne E) | exact (Hs E)].
      * constructor. exact S2.
Qed.

Lemma url_lines_spec (urls_text u : str) :
  In u (url_lines urls_text) ->
  u <> [] /\ strip u = u /\ Forall (fun c => is_linebreak c = false) u.
Proof.
  unfold url_lines. rewrite in_map_iff. intros [line [<- H]].
  apply list_elem_of_In, list_elem_of_filter in H as [Hne H].
  apply list_elem_of_In in H. split; [|split].
  - apply truthy_nonempty. exact Hne.
  - apply strip_idem.
  - rewrite strip_trim. apply Forall_trim.
    apply (splitlines_from_lines _ _ _ H). constructor.
Qed.

(** X13. The URLs taken from the text area are at most [MAX_LINKS], all
    different, and each is non-empty, without white space at its ends and
    without a line break. *)
Theorem urls_of_wellformed (urls_text : str) :
  (length (urls_of urls_text) <= MAX_LINKS)%nat /\
  NoDup (urls_of urls_text) /\
  Forall (fun u => u <> [] /\ strip u = u /\
                   Forall (fun c => is_linebreak c = false) u)
         (urls_of urls_text).
Proof.
  unfold urls_of. fold (url_lines urls_text).
  destruct (fromkeys_from_spec [] (url_lines urls_text)) as (N1 & I1 & _ & _).
  fold (fromkeys (url_lines urls_text)) in *.
  split; [|split].
  - rewrite length_take. lia.
  - eapply sublist_NoDup; [exact N1 | apply sublist_take].
  - apply Forall_forall. intros u Hu.
    pose proof (elem_of_sublist _ _ _ Hu (sublist_take _ _)) as Hf.
    apply list_elem_of_In, I1 in Hf as [Hf _].
    exact (url_lines_spec _ _ Hf).
Qed.

(** X14. No URL is found (and the error message is shown) exactly when
    the text area holds nothing but white space. *)
Theorem urls_of_empty (urls_text : str) :
  urls_of urls_text = [] <-> Forall (fun c => isspace c = true) urls_text.
Proof.
  unfold urls_of. fold (url_lines urls_text). split.
  - intros H. apply Forall_forall. intros x Hx. apply list_elem_of_In in Hx.
    destruct (isspace x) eqn:Ex; [reflexivity|]. exfalso.
    assert (Hb : is_linebreak x = false).
    { destruct (is_linebreak x) eqn:Eb; [|reflexivity].
      apply linebreak_isspace in Eb. congruence. }
    destruct (splitlines_from_covers urls_text [] x (or_intror (conj Hx Hb)))
      as [line [Hl Hin]].
    assert (Hu : In (strip line) (url_lines urls_text)).
    { unfold url_lines. apply in_map, list_elem_of_In, list_elem_of_filter.
      split; [|apply list_elem_of_In; exact Hl].
      apply truthy_nonempty. rewrite strip_trim. intros E.
      pose proof (In_trim x line Ex Hin) as H'. rewrite E in H'. destruct H'. }
    destruct (url_lines urls_text) as [|k rest]; [destruct Hu|].
    discriminate H.
  - intros H.
    assert (E : url_lines urls_text = []); [|rewrite E; reflexivity].
    unfold url_lines.
    assert (Hl : forall line, In line (splitlines urls_text) -> truthy (strip line) <> true).
    { intros line Hin. rewrite strip_trim. unfold trim.
      rewrite trim_start_all; [discriminate|].
      apply Forall_forall. intros x Hx. apply list_elem_of_In in Hx.
      destruct (proj1 (splitlines_from_lines _ _ _ Hin) x Hx) as [[]|Hs].
      rewrite Forall_forall in H. apply H, list_elem_of_In, Hs. }
    induction (splitlines urls_text) as [|l ls IH]; [reflexivity|].
    rewrite filter_cons_False by (apply Hl; left; reflexivity).
    apply IH. intros line Hin. apply Hl. right. exact Hin.
Qed.

(** X15. The URLs keep the order of their lines, and a line is left out
    only as a duplicate of an earlier one or once [MAX_LINKS] URLs are
    taken. *)
Theorem urls_of_complete (urls_text : str) :
  urls_of urls_text `sublist_of` url_lines urls_text /\
  forall u, In u (url_lines urls_text) ->
    In u (urls_of urls_text) \/ length (urls_of urls_text) = MAX_LINKS.
Proof.
  unfold urls_of. fold (url_lines urls_text).
  destruct (fromkeys_from_spec [] (url_lines urls_text)) as (_ & _ & C1 & S1).
  fold (fromkeys (url_lines urls_text)) in *. split.
  - etransitivity; [apply sublist_take | exact S1].
  - intros u Hu. specialize (C1 u Hu ltac:(intros [])).
    destruct (Nat.le_gt_cases (length (fromkeys (url_lines urls_text))) MAX_LINKS) as [Hle|Hgt].
    + left. rewrite firstn_all2 by exact Hle. exact C1.
    + right. rewrite length_take. lia.
Qed.

Lemma urls_of_complete_witness :
  In (U "https://b.example") (urls_of example_urls_text) \/
  length (urls_of example_urls_text) = MAX_LINKS.
Proof.
  apply (proj2 (urls_of_complete example_urls_text)).
  vm_compute. right. left. reflexivity.
Defined.

(** ** The rows of the batch *)

Lemma extract_soup_returns (soup : node) :
  exists ttl : str,
    extract_soup soup = Ok (ttl, normalize (visible_text_nodes soup)) /\
    strip ttl = ttl.
Proof.
  unfold extract_soup.
  destruct (soup_title soup) as [t|]; simpl; [|eauto].
  destruct (tag_string t) as [[k s]|] eqn:Hs; simpl; [|eauto].
  destruct (truthy s); simpl; [|eauto].
  rewrite (tag_string_get_text _ _ _ Hs).
  eexists. split; [reflexivity|].
  destruct (interesting k); [apply strip_idem | reflexivity].
Qed.

Lemma grab_cases (fetch_html : str -> str + str) (BeautifulSoup : str -> result node)
    (str_of_exn : exn -> str) (u : str) :
  match fetch_html u with
  | inl msg =>
      grab fetch_html BeautifulSoup str_of_exn u =
        {| url := u; title := []; text := []; notes := U "Error: " ++ msg |}
  | inr html =>
      match BeautifulSoup html with
      | Ok soup =>
          exists ttl : str,
            strip ttl = ttl /\
            extract_soup soup = Ok (ttl, normalize (visible_text_nodes soup)) /\
            grab fetch_html BeautifulSoup str_of_exn u =
              {| url := u; title := ttl;
                 text := normalize (visible_text_nodes soup);
                 notes := [] |}
      | Raise e =>
          grab fetch_html BeautifulSoup str_of_exn u =
            {| url := u; title := []; text := [];
               notes := U "Error: " ++ str_of_exn e |}
      end
  end.
Proof.
  unfold grab. destruct (fetch_html u) as [msg|html]; [reflexivity|].
  unfold extract_all_visible_text.
  destruct (BeautifulSoup html) as [soup|e]; [|reflexivity].
  cbn [mbind result_bind].
  destruct (extract_soup_returns soup) as [ttl [E Ht]].
  rewrite E. exists ttl. auto.
Qed.

(** X16. The batch goes on after a failure: every URL gets exactly one
    row, in order.  A row is an error row exactly when the fetch raised or
    the parser rejected the markup fetched: then its note is [Error: ]
    and the message of that exception, its title and text are empty.
    Otherwise it has no note and carries the title and text extracted
    from the tree the parser built: what follows the parser never makes
    an error row. *)
Theorem rows_of_outcome (fetch_html : str -> str + str) (BeautifulSoup : str -> result node)
    (str_of_exn : exn -> str) (urls : list str) :
  map url (rows_of fetch_html BeautifulSoup str_of_exn urls) = urls /\
  Forall (fun r =>
            match fetch_html (url r) with
            | inl msg =>
                notes r = U "Error: " ++ msg /\ title r = [] /\ text r = []
            | inr html =>
                match BeautifulSoup html with
                | Ok soup =>
                    notes r = [] /\ extract_soup soup = Ok (title r, text r)
                | Raise e =>
                    notes r = U "Error: " ++ str_of_exn e /\
                    title r = [] /\ text r = []
                end
            end)
         (rows_of fetch_html BeautifulSoup str_of_exn urls).
Proof.
  unfold rows_of. induction urls as [|u urls [IH1 IH2]]; [split; constructor|].
  cbn [map]. pose proof (grab_cases fetch_html BeautifulSoup str_of_exn u) as H.
  assert (Hu : url (grab fetch_html BeautifulSoup str_of_exn u) = u).
  { destruct (fetch_html u) as [msg|html]; [rewrite H; reflexivity|].
    destruct (BeautifulSoup html) as [soup|e]; [|rewrite H; reflexivity].
    destruct H as [ttl [_ [_ ->]]]. reflexivity. }
  split; [rewrite Hu, IH1; reflexivity|].
  constructor; [|exact IH2]. rewrite Hu.
  destruct (fetch_html u) as [msg|html].
  - rewrite H. auto.
  - destruct (BeautifulSoup html) as [soup|e].
    + destruct H as [ttl [_ [E ->]]]. auto.
    + rewrite H. auto.
Qed.

(** X17. Whatever is fetched, every row of the batch has a title without
    white space at its ends and a normalised text: no tab, no
    non-breaking space, no two consecutive spaces, no three consecutive
    newlines, no white space at its ends. *)
Theorem rows_of_normalised (fetch_html : str -> str + str) (BeautifulSoup : str -> result node)
    (str_of_exn : exn -> str) (urls : list str) :
  Forall (fun r =>
            strip (title r) = title r /\ strip (text r) = text r /\
            ~ In TAB (text r) /\ ~ In NBSP (text r) /\
            contains [SPACE; SPACE] (text r) = false /\
            contains [NL; NL; NL] (text r) = false)
         (rows_of fetch_html BeautifulSoup str_of_exn urls).
Proof.
  unfold rows_of. apply Forall_forall. intros r Hr.
  apply list_elem_of_In, in_map_iff in Hr as [u [<- _]].
  pose proof (grab_cases fetch_html BeautifulSoup str_of_exn u) as H.
  destruct (fetch_html u) as [msg|html].
  - rewrite H. cbn [title text]. repeat split; auto.
  - destruct (BeautifulSoup html) as [soup|e].
    + destruct H as [ttl [Ht [_ ->]]]. cbn [title text].
      split; [exact Ht|]. split; [unfold normalize; apply strip_idem|].
      split; [apply normalize_no_tab|]. split; [apply normalize_nbsp_free|].
      split; [apply no_pair_contains, normalize_no_pair|].
      apply no_triple_contains, normalize_no_triple.
    + rewrite H. cbn [title text]. repeat split; auto.
Qed.

(** ** The texts in the combined export *)

Lemma trim_end_last (s : str) :
  match last (trim_end s) with
  | Some c => isspace c = false
  | None => True
  end.
Proof.
  induction s as [|c s IH]; [exact I|].
  rewrite trim_end_cons. destruct (trim_end s) as [|y r] eqn:E.
  - destruct (isspace c) eqn:Ec; [exact I | exact Ec].
  - rewrite last_cons_cons. exact IH.
Qed.

Lemma stripped_last (t : str) :
  strip t = t -> t <> [] -> exists t0 c, t = t0 ++ [c] /\ isspace c = false.
Proof.
  rewrite strip_trim. intros Ht Hne.
  assert (He : trim_end t = t).
  { rewrite <- Ht at 1. unfold trim. rewrite trim_end_idem. exact Ht. }
  pose proof (trim_end_last t) as Hl. rewrite He in Hl.
  destruct (last t) as [c|] eqn:E.
  - apply last_Some in E as [t0 ->]. eauto.
  - apply last_None in E. contradiction.
Qed.

(** X18. In the combined text the text of a record stands in full on the
    lines right under its header, provided it is not empty and has no
    white space at its ends (as every text of the batch, X17); after it
    the file ends or a blank line follows. *)
Theorem combined_txt_has_text (rows : list Row) (i : nat) (r : Row) :
  rows !! i = Some r ->
  text r <> [] -> strip (text r) = text r ->
  exists pre post,
    combined_txt rows =
      pre ++ header_line (N.of_nat i + 1) (str_or (title r) (U "(no title)")) (url r)
          ++ [NL] ++ text r ++ post
    /\ (post = [] \/ exists y, post = NL :: NL :: y).
Proof.
  intros Hi Hne Hs.
  destruct (stripped_last _ Hs Hne) as [t0 [c [Et Hc]]].
  apply list_elem_of_split_length in Hi as [rows1 [rows2 [-> Hlen]]].
  unfold combined_txt.
  assert (Hstart : exists s, concat (combined_parts 1 (rows1 ++ r :: rows2)) = 61 :: s).
  { destruct rows1; apply combined_parts_starts. }
  destruct Hstart as [s0 Hstart].
  unfold strip. rewrite Hstart. cbn [lstrip]. change (isspace 61) with false.
  cbv iota. rewrite <- Hstart. clear Hstart s0.
  rewrite rstrip_trim_end, combined_parts_app, concat_app.
  cbn [combined_parts concat]. rewrite header_header_line.
  replace (1 + N.of_nat (length rows1)) with (N.of_nat i + 1) by lia.
  set (line := header_line _ _ _).
  set (pre := concat (combined_parts 1 rows1)).
  set (rest := concat (combined_parts (N.of_nat i + 1 + 1) rows2)).
  assert (Hor : str_or (text r) [] = text r) by (unfold str_or; destruct (text r); reflexivity).
  rewrite Hor.
  assert (E : pre ++ ((line ++ [NL]) ++ text r ++ [NL; NL]) ++ rest
              = (pre ++ line ++ [NL] ++ t0) ++ c :: (NL :: NL :: rest)).
  { rewrite Et, <- !app_assoc. reflexivity. }
  rewrite E, trim_end_after by exact Hc.
  exists pre, (trim_end (NL :: NL :: rest)). split.
  - rewrite Et, <- !app_assoc. reflexivity.
  - rewrite trim_end_cons.
    destruct (trim_end (NL :: rest)) as [|y l] eqn:E2; [left; reflexivity|].
    right. destruct (trim_end_head NL rest) as [E3|[l' E3]]; rewrite E3 in E2.
    + discriminate E2.
    + injection E2 as <- <-. eauto.
Qed.

Lemma combined_txt_has_text_witness :
  exists pre post,
    combined_txt [titled_row; untitled_row] =
      pre ++ U "===== [2] (no title) :: https://example.org/page =====" ++ [NL]
          ++ U "Hi" ++ post
    /\ (post = [] \/ exists y, post = NL :: NL :: y).
Proof.
  refine (combined_txt_has_text [titled_row; untitled_row] 1 untitled_row eq_refl _ eq_refl).
  discriminate.
Defined.
